(** * Reverse-dependency search of cmd/poc1/command/root.go

    A shallow embedding of the graph logic of [root.go]: name
    normalisation, exact package lookup, direct dependents of a node, the
    depth-annotated recursive search and the depth-grouped report printed by
    [Run].

    Go [string]s are byte strings ([string]).  [map[string]bool] and
    [map[int][]DependentWithDepth] are finite maps ([gmap]) read with Go's
    zero-value default.  Go [int]s are integers ([Z]): the only arithmetic
    is [currentDepth + 1] and the loop counters of the report, and the
    proofs bound every depth by the number of edges, so no addition of the
    search leaves the range of a 64-bit int.

    The file has three parts: the embedding of the source, the vocabulary
    used to state its properties, and the proofs. *)

From Stdlib Require Import ZArith Ascii String List.
From stdpp Require Import base decidable option list gmap strings pretty sorting.

Local Open Scope string_scope.
Local Open Scope list_scope.
Local Open Scope Z_scope.

(** ** Graph data, as the search reads it from [gographviz.Graph] *)

(** An edge of [graph.Edges.Edges]; only [Src] and [Dst] are read. *)
Record Edge := mkEdge { Src : string; Dst : string }.

(** [Lookup] lists the keys of [graph.Nodes.Lookup] in one iteration order
    of the Go map; [Edges] is the slice [graph.Edges.Edges] in declaration
    order. *)
Record Graph := mkGraph { Lookup : list string; Edges : list Edge }.

Record DependentWithDepth := mkDep { NodeName : string; Depth : Z }.

#[global] Instance Edge_eq_dec : EqDecision Edge.
Proof. solve_decision. Defined.

#[global] Instance DependentWithDepth_eq_dec : EqDecision DependentWithDepth.
Proof. solve_decision. Defined.

(** ** normalizeNodeName: strings.Trim with the double-quote cutset *)

Definition quote : ascii := Ascii.ascii_of_nat 34.

(** [strings.Trim] with a one-byte cutset trims that byte on the right and
    then on the left. *)
Fixpoint trimLeftByte (s : string) (c : ascii) : string :=
  match s with
  | String b rest => if Ascii.eqb b c then trimLeftByte rest c else s
  | EmptyString => EmptyString
  end.

Fixpoint trimRightByte (s : string) (c : ascii) : string :=
  match s with
  | String b rest =>
      match trimRightByte rest c with
      | EmptyString => if Ascii.eqb b c then EmptyString else String b EmptyString
      | kept => String b kept
      end
  | EmptyString => EmptyString
  end.

Definition normalizeNodeName (name : string) : string :=
  trimLeftByte (trimRightByte name quote) quote.

(** ** findExactPackage *)

Fixpoint findExactPackage_range (keys : list string) (packageName : string)
  : string * bool :=
  match keys with
  | nodeName :: rest =>
      if decide (normalizeNodeName nodeName = packageName)
      then (normalizeNodeName nodeName, true)
      else findExactPackage_range rest packageName
  | [] => ("", false)
  end.

Definition findExactPackage (graph : Graph) (packageName : string) : string * bool :=
  findExactPackage_range (Lookup graph) packageName.

(** ** Visited maps: [map[string]bool] read with default [false] *)

Definition is_visited (visited : gmap string bool) (name : string) : bool :=
  default false (visited !! name).

Definition mark (visited : gmap string bool) (name : string) : gmap string bool :=
  <[name := true]> visited.

(** ** findDirectDependents *)

Fixpoint findDirectDependents_range (edges : list Edge) (targetNodeName : string)
    (visited : gmap string bool) (dependents : list string) : list string :=
  match edges with
  | edge :: rest =>
      if decide (normalizeNodeName (Dst edge) = targetNodeName) then
        let srcName := normalizeNodeName (Src edge) in
        if negb (is_visited visited srcName)
        then findDirectDependents_range rest targetNodeName
               (mark visited srcName) (dependents ++ [Src edge])
        else findDirectDependents_range rest targetNodeName visited dependents
      else findDirectDependents_range rest targetNodeName visited dependents
  | [] => dependents
  end.

Definition findDirectDependents (graph : Graph) (targetNodeName : string) : list string :=
  findDirectDependents_range (Edges graph) targetNodeName ∅ [].

(** ** searchAtDepth and findDependentsWithDepth *)

(** The state the recursion shares through the [visited] map and the
    [result] pointer. *)
Record SearchState := mkState {
  visited : gmap string bool;
  result : list DependentWithDepth
}.

(** First loop of [searchAtDepth]: mark the unvisited direct dependents,
    record them at [currentDepth + 1] and queue them. *)
Fixpoint markDependents (directDependents : list string) (currentDepth : Z)
    (st : SearchState) (queue : list string) : SearchState * list string :=
  match directDependents with
  | depNodeName :: rest =>
      let depNodeName := normalizeNodeName depNodeName in
      if is_visited (visited st) depNodeName
      then markDependents rest currentDepth st queue
      else markDependents rest currentDepth
             (mkState (mark (visited st) depNodeName)
                      (result st ++ [mkDep depNodeName (currentDepth + 1)]))
             (queue ++ [depNodeName])
  | [] => (st, queue)
  end.

(** Second loop of [searchAtDepth]: run [call] on every queued name,
    threading the shared state; [None] when a call runs out of fuel. *)
Fixpoint forQueue (call : string -> SearchState -> option SearchState)
    (queue : list string) (st : SearchState) : option SearchState :=
  match queue with
  | depNodeName :: rest =>
      let depNodeName := normalizeNodeName depNodeName in
      match call (normalizeNodeName depNodeName) st with
      | Some st' => forQueue call rest st'
      | None => None
      end
  | [] => Some st
  end.

(** The recursion of [searchAtDepth] is not structural; [fuel] bounds its
    nesting.  [searchAtDepth_terminates] below shows that the fuel used by
    [findDependentsWithDepth] never runs out. *)
Fixpoint searchAtDepth (fuel : nat) (graph : Graph) (targetNodeName : string)
    (currentDepth maxDepth : Z) (st : SearchState) : option SearchState :=
  match fuel with
  | O => None
  | S fuel' =>
      if (0 <? maxDepth) && (maxDepth <=? currentDepth) then Some st
      else
        let directDependents := findDirectDependents graph targetNodeName in
        let '(st1, queue) := markDependents directDependents currentDepth st [] in
        forQueue (fun name => searchAtDepth fuel' graph name (currentDepth + 1) maxDepth)
                 queue st1
  end.

Definition rootSentinel : string := "RPM-Packages".

Definition seedVisited (targetNodeName : string) : gmap string bool :=
  mark (mark ∅ rootSentinel) (normalizeNodeName targetNodeName).

Definition searchFuel (graph : Graph) : nat := S (length (Edges graph)).

Definition findDependentsWithDepth (graph : Graph) (targetNodeName : string)
    (maxDepth : Z) : list DependentWithDepth :=
  match searchAtDepth (searchFuel graph) graph targetNodeName 0 maxDepth
          (mkState (seedVisited targetNodeName) []) with
  | Some st => result st
  | None => []
  end.

(** ** Run: lookup, search and the depth-grouped report *)

(** A Go [error]: one handed up by reading, parsing or analysing the input,
    or one made by [errors.New]. *)
Inductive error :=
  | Upstream (cause : string)
  | errorsNew (text : string).

(** One [fmt.Printf] call of the report with its arguments. *)
Inductive Printed :=
  | DepthHeader (depth : Z) (num : Z)
  | DepthMember (index : Z) (name : string).

Definition newline : string := String (Ascii.ascii_of_nat 10) EmptyString.
Definition tab : string := String (Ascii.ascii_of_nat 9) EmptyString.

Definition render (p : Printed) : string :=
  match p with
  | DepthHeader depth num =>
      "depth " +:+ pretty depth +:+ " (num " +:+ pretty num +:+ "):" +:+ newline
  | DepthMember index name =>
      tab +:+ pretty index +:+ ". " +:+ name +:+ newline
  end.

Definition notFoundText (targetName : string) : string :=
  targetName +:+ " package is Not Found in your SBOM DOT File.".

(** [depthMap[depth]] with the nil default of a missing key. *)
Definition depthGroup (depthMap : gmap Z (list DependentWithDepth)) (depth : Z)
  : list DependentWithDepth :=
  default [] (depthMap !! depth).

(** The loop filling [depthMap] and [actualMaxDepth]. *)
Fixpoint groupByDepth (deps : list DependentWithDepth)
    (depthMap : gmap Z (list DependentWithDepth)) (actualMaxDepth : Z)
  : gmap Z (list DependentWithDepth) * Z :=
  match deps with
  | dep :: rest =>
      let depthMap := <[Depth dep := depthGroup depthMap (Depth dep) ++ [dep]]> depthMap in
      let actualMaxDepth :=
        if actualMaxDepth <? Depth dep then Depth dep else actualMaxDepth in
      groupByDepth rest depthMap actualMaxDepth
  | [] => (depthMap, actualMaxDepth)
  end.

(** The inner loop: one numbered line per member, [i] counting from 0. *)
Fixpoint printMembers (deps : list DependentWithDepth) (i : Z) : list Printed :=
  match deps with
  | dep :: rest => DepthMember (i + 1) (NodeName dep) :: printMembers rest (i + 1)
  | [] => []
  end.

(** The outer loop over [depth := 1; depth <= actualMaxDepth; depth++],
    given the depths it ranges over. *)
Fixpoint printDepths (depths : list Z) (depthMap : gmap Z (list DependentWithDepth))
  : list Printed :=
  match depths with
  | depth :: rest =>
      let deps := depthGroup depthMap depth in
      if decide (length deps = 0%nat) then printDepths rest depthMap
      else DepthHeader depth (Z.of_nat (length deps))
             :: printMembers deps 0 ++ printDepths rest depthMap
  | [] => []
  end.

Definition report (indirectDependents : list DependentWithDepth) : list Printed :=
  let '(depthMap, actualMaxDepth) := groupByDepth indirectDependents ∅ 0 in
  printDepths (seqZ 1 actualMaxDepth) depthMap.

(** [Run] after the input has been read, parsed and analysed: [input] is the
    outcome of those three steps, an error of theirs or the graph.  The
    result is what was printed and the error returned. *)
Definition Run (input : error + Graph) (PkgName : string) (MaxDepth : Z)
  : list Printed * option error :=
  let targetName := PkgName in
  let maxDepth := MaxDepth in
  match input with
  | inl err => ([], Some err)
  | inr graph =>
      if snd (findExactPackage graph targetName) then
        let indirectDependents := findDependentsWithDepth graph targetName maxDepth in
        (report indirectDependents, None)
      else ([], Some (errorsNew (notFoundText targetName)))
  end.

Definition stdout (printed : list Printed) : string :=
  foldr (fun p text => render p +:+ text) "" printed.

(** * Vocabulary of the statements *)

(** ** The search *)

Definition srcNames (g : Graph) : list string :=
  map (fun e => normalizeNodeName (Src e)) (Edges g).

(** The names [markDependents] finds unvisited, in order. *)
Fixpoint freshNames (directDependents : list string) (V : gmap string bool)
  : list string :=
  match directDependents with
  | depNodeName :: rest =>
      let n := normalizeNodeName depNodeName in
      if is_visited V n then freshNames rest V else n :: freshNames rest (mark V n)
  | [] => []
  end.

Definition recordsAt (depth : Z) (names : list string) : list DependentWithDepth :=
  map (fun n => mkDep n depth) names.

(** [extends g d K st st']: [st'] is [st] with new records appended, each a
    so far unvisited name of an edge source, deeper than [d] and within a
    positive bound [K]; the visited names grow by exactly the recorded
    names. *)
Definition extends (g : Graph) (d K : Z) (st st' : SearchState) : Prop :=
  exists new,
    result st' = result st ++ new
    /\ NoDup (map NodeName new)
    /\ (forall m, is_visited (visited st') m = true <->
                  is_visited (visited st) m = true \/ m ∈ map NodeName new)
    /\ (forall r, r ∈ new ->
          is_visited (visited st) (NodeName r) = false
          /\ d < Depth r /\ (0 < K -> Depth r <= K)
          /\ NodeName r ∈ srcNames g).

(** The edge sources not yet visited; every nested call shrinks this set. *)
Definition unvisited (g : Graph) (V : gmap string bool) : gset string :=
  filter (fun n => is_visited V n = false) (list_to_set (srcNames g)).

(** The nodes of a graph, by canonical name: the keys of [Lookup] and the
    ends of the edges (which are keys of [Lookup] in every graph built by
    gographviz). *)
Definition nodeNames (g : Graph) : gset string :=
  list_to_set (map normalizeNodeName
                 (Lookup g ++ flat_map (fun e => [Src e; Dst e]) (Edges g))).

Definition nodeCount (g : Graph) : nat := size (nodeNames g).

(** The local [visited] map of [findDirectDependents] after the loop has
    run over [edges]. *)
Fixpoint seenAfter (edges : list Edge) (targetNodeName : string)
    (V : gmap string bool) : gmap string bool :=
  match edges with
  | edge :: rest =>
      if decide (normalizeNodeName (Dst edge) = targetNodeName) then
        if negb (is_visited V (normalizeNodeName (Src edge)))
        then seenAfter rest targetNodeName (mark V (normalizeNodeName (Src edge)))
        else seenAfter rest targetNodeName V
      else seenAfter rest targetNodeName V
  | [] => V
  end.

(** [closedAt g V m]: the source of every edge into [m] is visited in [V]. *)
Definition closedAt (g : Graph) (V : gmap string bool) (m : string) : Prop :=
  forall e, e ∈ Edges g -> normalizeNodeName (Dst e) = m ->
            is_visited V (normalizeNodeName (Src e)) = true.

(** What a returned call leaves behind: its target and every node it
    recorded have all their direct dependents visited. *)
Definition expanded (g : Graph) (m : string) (st st' : SearchState) : Prop :=
  exists new,
    result st' = result st ++ new
    /\ closedAt g (visited st') m
    /\ Forall (fun r => closedAt g (visited st') (NodeName r)) new.

(** ** Names *)

(** [n] double quotes in a row. *)
Fixpoint quotes (n : nat) : string :=
  match n with
  | O => EmptyString
  | S n' => String quote (quotes n')
  end.

Definition firstByte (s : string) : option ascii :=
  match s with
  | String b _ => Some b
  | EmptyString => None
  end.

Fixpoint lastByte (s : string) : option ascii :=
  match s with
  | String b EmptyString => Some b
  | String _ rest => lastByte rest
  | EmptyString => None
  end.

(** The canonical names of the direct dependents of [t], without the names
    seeded as visited: that of [t] and the sentinel. *)
Definition firstLayer (g : Graph) (t : string) : list string :=
  filter (fun n => n <> normalizeNodeName t /\ n <> rootSentinel)
         (map normalizeNodeName (findDirectDependents g t)).

(** The graph with every name replaced by its canonical name. *)
Definition canonEdge (e : Edge) : Edge :=
  mkEdge (normalizeNodeName (Src e)) (normalizeNodeName (Dst e)).

Definition canonGraph (g : Graph) : Graph :=
  mkGraph (map normalizeNodeName (Lookup g)) (map canonEdge (Edges g)).

(** ** Reverse paths *)

(** [revPath g t n k]: [k] edges lead from [n] to [t], each read as the
    search reads it, by the canonical names of its ends. *)
Inductive revPath (g : Graph) (t : string) : string -> nat -> Prop :=
  | revPath_here : revPath g t t 0
  | revPath_step m n k e :
      revPath g t m k -> e ∈ Edges g ->
      normalizeNodeName (Dst e) = m -> normalizeNodeName (Src e) = n ->
      revPath g t n (S k).

(** A reverse path from [t] none of whose nodes after [t] is seeded as
    visited, that is, named like the target or the sentinel. *)
Inductive livePath (g : Graph) (t : string) : string -> nat -> Prop :=
  | livePath_here : livePath g t t 0
  | livePath_step m n k e :
      livePath g t m k -> e ∈ Edges g ->
      normalizeNodeName (Dst e) = m -> normalizeNodeName (Src e) = n ->
      is_visited (seedVisited t) n = false ->
      livePath g t n (S k).

(** ** The report *)

(** The records of depth [d], in the order of the record sequence. *)
Definition membersAt (d : Z) (records : list DependentWithDepth)
  : list DependentWithDepth :=
  filter (fun r => Depth r = d) records.

(** A depth tier: its header with the depth and the member count, then the
    members numbered from 1. *)
Definition groupLines (d : Z) (members : list DependentWithDepth) : list Printed :=
  DepthHeader d (Z.of_nat (length members))
    :: imap (fun i r => DepthMember (Z.of_nat i + 1) (NodeName r)) members.

(** The depths of the headers of a report, in the order printed. *)
Definition headerDepths (out : list Printed) : list Z :=
  omap (fun p => match p with
                 | DepthHeader d _ => Some d
                 | DepthMember _ _ => None
                 end) out.

(** The names of the member lines of a report, in the order printed. *)
Definition memberNames (out : list Printed) : list string :=
  omap (fun p => match p with
                 | DepthMember _ name => Some name
                 | DepthHeader _ _ => None
                 end) out.

(** ** Sample graphs *)

Definition E (src dst : string) : Edge := mkEdge src dst.

Definition g_spec : Graph :=
  mkGraph ["A"; "B"; "C"; "D"; "E"] [E "A" "B"; E "C" "B"; E "D" "A"; E "E" "C"].

(** N depends on B, a direct dependent of T, and also on X, which is two
    edges away from T. *)
Definition g_shortcut : Graph :=
  mkGraph ["A"; "T"; "B"; "X"; "N"]
          [E "A" "T"; E "B" "T"; E "X" "A"; E "N" "X"; E "N" "B"].

Definition g_branches : Graph :=
  mkGraph ["A"; "T"; "B"; "X"; "Y"; "Z"]
          [E "A" "T"; E "B" "T"; E "X" "A"; E "Y" "X"; E "Z" "B"].

Definition g_cutoff : Graph :=
  mkGraph ["A"; "T"; "B"; "X"; "M"; "N"]
          [E "A" "T"; E "B" "T"; E "X" "A"; E "M" "X"; E "M" "B"; E "N" "M"].

(** A graph in which the sentinel name is an ordinary package: it depends
    on T, and P depends on it. *)
Definition g_sentinel : Graph :=
  mkGraph ["RPM-Packages"; "T"; "A"; "P"]
          [E "RPM-Packages" "T"; E "A" "T"; E "P" "RPM-Packages"].

Definition g_twice : Graph := mkGraph ["A"; "T"] [E "A" "T"; E "A" "T"].

(** The two diamonds of the spec's examples, target D. *)
Definition g_diamond : Graph :=
  mkGraph ["A"; "B"; "C"; "D"] [E "A" "B"; E "B" "D"; E "A" "C"; E "C" "D"].

Definition g_uneven : Graph :=
  mkGraph ["B"; "C"; "D"] [E "B" "D"; E "B" "C"; E "C" "D"].

(** A name as the DOT text writes it between double quotes. *)
Definition quoted (name : string) : string :=
  String quote (name +:+ String quote EmptyString).

(** A graph whose only node is written with quotes in the DOT text. *)
Definition g_quoted : Graph := mkGraph [quoted "libfoo"] [].

(** * Proofs *)

(** ** Visited maps *)

Lemma is_visited_mark (V : gmap string bool) (n m : string) :
  is_visited (mark V n) m = if decide (n = m) then true else is_visited V m.
Proof.
  unfold is_visited, mark. rewrite lookup_insert. by case_decide.
Qed.

Lemma is_visited_mark_true (V : gmap string bool) (n m : string) :
  is_visited (mark V n) m = true <-> m = n \/ is_visited V m = true.
Proof.
  rewrite is_visited_mark. case_decide; naive_solver.
Qed.

Lemma is_visited_empty (n : string) : is_visited ∅ n = false.
Proof. unfold is_visited. by rewrite lookup_empty. Qed.

(** ** The first loop: which names it marks *)

Lemma markDependents_eq l d st q :
  markDependents l d st q =
    (mkState (foldl mark (visited st) (freshNames l (visited st)))
             (result st ++ recordsAt (d + 1) (freshNames l (visited st))),
     q ++ freshNames l (visited st)).
Proof.
  revert st q. induction l as [|x l IH]; intros [V res] q; simpl.
  - by rewrite !app_nil_r.
  - destruct (is_visited V (normalizeNodeName x)) eqn:Hv.
    + by rewrite IH.
    + rewrite IH. simpl. by rewrite <- !app_assoc.
Qed.

Lemma is_visited_foldl_mark V names m :
  is_visited (foldl mark V names) m = true <-> is_visited V m = true \/ m ∈ names.
Proof.
  revert V. induction names as [|n names IH]; intros V; simpl.
  - set_solver.
  - rewrite IH, is_visited_mark_true. set_solver.
Qed.

Lemma freshNames_spec l V :
  NoDup (freshNames l V)
  /\ (forall n, n ∈ freshNames l V ->
        is_visited V n = false /\ n ∈ map normalizeNodeName l)
  /\ (forall x, x ∈ l ->
        is_visited V (normalizeNodeName x) = true
        \/ normalizeNodeName x ∈ freshNames l V).
Proof.
  revert V. induction l as [|x l IH]; intros V; simpl.
  - split; [constructor|]. split; intros ? H; inversion H.
  - destruct (is_visited V (normalizeNodeName x)) eqn:Hv.
    + destruct (IH V) as (Hnd & Hin & Hall). split; [done|]. split.
      * intros n Hn. destruct (Hin n Hn). set_solver.
      * intros y Hy. apply elem_of_cons in Hy as [->|Hy]; auto.
    + destruct (IH (mark V (normalizeNodeName x))) as (Hnd & Hin & Hall).
      split; [|split].
      * constructor; [|done]. intros Hx. apply Hin in Hx as [Hx _].
        rewrite is_visited_mark in Hx. by case_decide.
      * intros n Hn. apply elem_of_cons in Hn as [->|Hn]; [set_solver|].
        destruct (Hin n Hn) as [Hm ?]. rewrite is_visited_mark in Hm.
        case_decide; [done|]. set_solver.
      * intros y Hy. apply elem_of_cons in Hy as [->|Hy]; [set_solver|].
        destruct (Hall y Hy) as [Hm|Hm]; [|set_solver].
        apply is_visited_mark_true in Hm as [->|Hm]; set_solver.
Qed.

(** ** findDirectDependents: where its names come from *)

Lemma findDirectDependents_range_elem edges t V acc x :
  x ∈ findDirectDependents_range edges t V acc ->
  x ∈ acc \/ x ∈ map Src edges.
Proof.
  revert V acc. induction edges as [|e edges IH]; intros V acc; simpl; [auto|].
  intros Hx. repeat case_match; apply IH in Hx; set_solver.
Qed.

Lemma findDirectDependents_srcNames g t x :
  x ∈ findDirectDependents g t -> normalizeNodeName x ∈ srcNames g.
Proof.
  intros Hx. apply findDirectDependents_range_elem in Hx as [Hx|Hx]; [inversion Hx|].
  unfold srcNames. apply list_elem_of_fmap in Hx as (e & -> & He).
  apply list_elem_of_fmap. eauto.
Qed.

(** ** What one call of searchAtDepth adds to the shared state *)

Lemma extends_refl g d K st : extends g d K st st.
Proof.
  exists []. rewrite app_nil_r. split; [done|]. split; [constructor|].
  split; [set_solver|]. intros r Hr. inversion Hr.
Qed.

Lemma extends_trans g d d' K a b c :
  d <= d' -> extends g d K a b -> extends g d' K b c -> extends g d K a c.
Proof.
  intros Hd (n1 & Hr1 & Hnd1 & Hv1 & Hp1) (n2 & Hr2 & Hnd2 & Hv2 & Hp2).
  exists (n1 ++ n2). split; [by rewrite Hr2, Hr1, app_assoc|].
  split; [|split].
  - rewrite map_app. apply NoDup_app. split; [done|]. split; [|done].
    intros m Hm1 Hm2. apply list_elem_of_fmap in Hm2 as (r & -> & Hr).
    destruct (Hp2 r Hr) as (Hnv & _).
    assert (is_visited (visited b) (NodeName r) = true) by (apply Hv1; auto).
    congruence.
  - intros m. rewrite Hv2, Hv1, map_app, elem_of_app. tauto.
  - intros r Hr. apply elem_of_app in Hr as [Hr|Hr]; [auto|].
    destruct (Hp2 r Hr) as (Hnv & Hlt & Hk & Hsrc).
    split; [|split; [lia|auto]].
    destruct (is_visited (visited a) (NodeName r)) eqn:Hva; [|done].
    assert (is_visited (visited b) (NodeName r) = true) by (apply Hv1; auto).
    congruence.
Qed.

Lemma forQueue_extends g d K call queue st st' :
  (forall n s s', call n s = Some s' -> extends g d K s s') ->
  forQueue call queue st = Some st' -> extends g d K st st'.
Proof.
  intros Hcall. revert st. induction queue as [|x queue IH]; intros st; simpl.
  - intros [= <-]. apply extends_refl.
  - destruct (call _ st) as [s1|] eqn:Hc; [|done]. intros Hq.
    eapply extends_trans; [reflexivity|eauto..].
Qed.

Lemma markDependents_extends g t d K st st1 q :
  ~ (0 < K /\ K <= d) ->
  markDependents (findDirectDependents g t) d st [] = (st1, q) ->
  extends g d K st st1.
Proof.
  intros HK. rewrite markDependents_eq. intros [= <- <-].
  set (fs := freshNames _ _). destruct (freshNames_spec (findDirectDependents g t) (visited st))
    as (Hnd & Hin & _). fold fs in Hnd, Hin.
  assert (Hnames : map NodeName (recordsAt (d + 1) fs) = fs).
  { unfold recordsAt. rewrite map_map. simpl. apply map_id. }
  exists (recordsAt (d + 1) fs). simpl. split; [done|]. rewrite Hnames.
  split; [done|]. split; [apply is_visited_foldl_mark|].
  intros r Hr. apply list_elem_of_fmap in Hr as (n & -> & Hn). simpl.
  destruct (Hin n Hn) as [Hnv Hsrc]. split; [done|]. split; [lia|]. split; [lia|].
  apply list_elem_of_fmap in Hsrc as (x & -> & Hx).
  by apply findDirectDependents_srcNames in Hx.
Qed.

Lemma searchAtDepth_extends fuel g t d K st st' :
  searchAtDepth fuel g t d K st = Some st' -> extends g d K st st'.
Proof.
  revert t d st st'. induction fuel as [|fuel IH]; intros t d st st'; simpl; [done|].
  destruct ((0 <? K) && (K <=? d)) eqn:Hcut.
  - intros [= <-]. apply extends_refl.
  - destruct (markDependents _ d st []) as [st1 q] eqn:Hm. intros Hq.
    assert (HK : ~ (0 < K /\ K <= d)).
    { apply andb_false_iff in Hcut as [H|H]; [apply Z.ltb_ge in H|apply Z.leb_gt in H]; lia. }
    eapply extends_trans; [| eapply markDependents_extends; eauto |].
    2:{ eapply forQueue_extends; [|exact Hq]. intros n s s' Hc. eapply IH, Hc. }
    lia.
Qed.

(** ** Termination: the fuel of findDependentsWithDepth suffices *)

Lemma elem_of_unvisited g V n :
  n ∈ unvisited g V <-> is_visited V n = false /\ n ∈ srcNames g.
Proof. unfold unvisited. rewrite elem_of_filter, elem_of_list_to_set. tauto. Qed.

Lemma size_le_length (X : gset string) (l : list string) :
  (forall x, x ∈ X -> x ∈ l) -> (size X <= length l)%nat.
Proof.
  intros Hsub. apply submseteq_length, NoDup_submseteq; [apply NoDup_elements|].
  intros x Hx. by apply Hsub, elem_of_elements.
Qed.

Lemma unvisited_size_edges g V : (size (unvisited g V) <= length (Edges g))%nat.
Proof.
  replace (length (Edges g)) with (length (srcNames g)) by apply length_map.
  apply size_le_length. intros x Hx. apply elem_of_unvisited in Hx. tauto.
Qed.

Lemma extends_unvisited g d K st st' :
  extends g d K st st' ->
  unvisited g (visited st') ⊆ unvisited g (visited st).
Proof.
  intros (new & _ & _ & Hv & _) n. rewrite !elem_of_unvisited.
  intros [Hn Hs]. split; [|done].
  destruct (is_visited (visited st) n) eqn:Hvn; [|done].
  assert (is_visited (visited st') n = true) by (apply Hv; auto). congruence.
Qed.

Lemma markDependents_unvisited g t d K st st1 q :
  ~ (0 < K /\ K <= d) ->
  markDependents (findDirectDependents g t) d st [] = (st1, q) ->
  q = [] \/ unvisited g (visited st1) ⊂ unvisited g (visited st).
Proof.
  intros HK Hm. pose proof (markDependents_extends _ _ _ _ _ _ _ HK Hm) as Hext.
  rewrite markDependents_eq in Hm. injection Hm as <- <-. simpl.
  destruct (freshNames_spec (findDirectDependents g t) (visited st)) as (_ & Hin & _).
  destruct (freshNames _ _) as [|n fs] eqn:Hfs; [by left|right].
  pose proof (extends_unvisited _ _ _ _ _ Hext) as Hsub0. simpl in Hsub0.
  split; [exact Hsub0|].
  intros Hsub. destruct (Hin n) as [Hnv Hsrc]; [left|].
  assert (Hn : n ∈ unvisited g (visited st)).
  { apply elem_of_unvisited. split; [done|].
    apply list_elem_of_fmap in Hsrc as (x & -> & Hx).
    by apply findDirectDependents_srcNames in Hx. }
  apply Hsub, elem_of_unvisited in Hn as [Hn _].
  assert (is_visited (foldl mark (visited st) (n :: fs)) n = true)
    by (apply is_visited_foldl_mark; right; left).
  congruence.
Qed.

Lemma forQueue_total (P : SearchState -> Prop) call queue st :
  (forall n s, P s -> exists s', call n s = Some s' /\ P s') ->
  P st -> exists st', forQueue call queue st = Some st' /\ P st'.
Proof.
  intros Hcall. revert st. induction queue as [|x queue IH]; intros st HP; simpl; [eauto|].
  destruct (Hcall (normalizeNodeName (normalizeNodeName x)) st HP) as (s1 & -> & HP1).
  by apply IH.
Qed.

Lemma searchAtDepth_terminates fuel g t d K st :
  (size (unvisited g (visited st)) < fuel)%nat ->
  exists st', searchAtDepth fuel g t d K st = Some st'.
Proof.
  revert t d st. induction fuel as [|fuel IH]; intros t d st Hsz; [lia|]. simpl.
  destruct ((0 <? K) && (K <=? d)) eqn:Hcut; [eauto|].
  assert (HK : ~ (0 < K /\ K <= d)).
  { apply andb_false_iff in Hcut as [H|H]; [apply Z.ltb_ge in H|apply Z.leb_gt in H]; lia. }
  destruct (markDependents _ d st []) as [st1 q] eqn:Hm.
  destruct (markDependents_unvisited _ _ _ _ _ _ _ HK Hm) as [->|Hsub]; [simpl; eauto|].
  apply subset_size in Hsub.
  destruct (forQueue_total
              (fun s => (size (unvisited g (visited s)) < fuel)%nat)
              (fun name => searchAtDepth fuel g name (d + 1) K) q st1)
    as (st' & Hq & _); [|lia|eauto].
  intros n s Hs. destruct (IH n (d + 1) s Hs) as (s' & Hs'). exists s'. split; [done|].
  apply searchAtDepth_extends, extends_unvisited, subseteq_size in Hs'. lia.
Qed.

Lemma forQueue_ext call1 call2 queue st :
  (forall n s s', call1 n s = Some s' -> call2 n s = Some s') ->
  forall st', forQueue call1 queue st = Some st' -> forQueue call2 queue st = Some st'.
Proof.
  intros Hcall. revert st. induction queue as [|x queue IH]; intros st st'; simpl; [done|].
  destruct (call1 _ st) as [s1|] eqn:Hc; [|done].
  rewrite (Hcall _ _ _ Hc). apply IH.
Qed.

(** More fuel never changes a result. *)
Lemma searchAtDepth_fuel_mono fuel fuel' g t d K st st' :
  (fuel <= fuel')%nat ->
  searchAtDepth fuel g t d K st = Some st' ->
  searchAtDepth fuel' g t d K st = Some st'.
Proof.
  revert fuel' t d st st'. induction fuel as [|fuel IH]; intros fuel' t d st st' Hle; [done|].
  destruct fuel' as [|fuel']; [lia|]. simpl.
  destruct ((0 <? K) && (K <=? d)); [done|].
  destruct (markDependents _ d st []) as [st1 q].
  apply forQueue_ext. intros n s s'. apply IH. lia.
Qed.

Lemma searchFuel_enough g V : (size (unvisited g V) < searchFuel g)%nat.
Proof. unfold searchFuel. pose proof (unvisited_size_edges g V). lia. Qed.

(** [findDependentsWithDepth] is the result of a search that returned. *)
Lemma findDependentsWithDepth_run g t K :
  exists st,
    searchAtDepth (searchFuel g) g t 0 K (mkState (seedVisited t) []) = Some st
    /\ findDependentsWithDepth g t K = result st.
Proof.
  destruct (searchAtDepth_terminates (searchFuel g) g t 0 K (mkState (seedVisited t) []))
    as (st & Hst); [apply searchFuel_enough|].
  exists st. split; [done|]. unfold findDependentsWithDepth. by rewrite Hst.
Qed.

Lemma findDependentsWithDepth_extends g t K :
  exists st,
    findDependentsWithDepth g t K = result st
    /\ extends g 0 K (mkState (seedVisited t) []) st.
Proof.
  destruct (findDependentsWithDepth_run g t K) as (st & Hrun & Hres).
  exists st. split; [done|]. by apply searchAtDepth_extends in Hrun.
Qed.

(** ** Properties of the records of one search *)

Lemma seedVisited_target t : is_visited (seedVisited t) (normalizeNodeName t) = true.
Proof. unfold seedVisited. apply is_visited_mark_true. by left. Qed.

Lemma seedVisited_sentinel t : is_visited (seedVisited t) rootSentinel = true.
Proof.
  unfold seedVisited. apply is_visited_mark_true. right.
  apply is_visited_mark_true. by left.
Qed.

(** Every record names an edge source that the seeded visited map did not
    hold, at a depth of at least 1 and, under a positive bound, at most the
    bound. *)
Lemma findDependentsWithDepth_records g t K :
  Forall (fun r =>
            is_visited (seedVisited t) (NodeName r) = false
            /\ 1 <= Depth r /\ (0 < K -> Depth r <= K)
            /\ NodeName r ∈ srcNames g)
         (findDependentsWithDepth g t K).
Proof.
  destruct (findDependentsWithDepth_extends g t K) as (st & -> & new & Hres & _ & _ & Hp).
  simpl in Hres. rewrite Hres. apply Forall_forall. intros r Hr.
  destruct (Hp r Hr) as (? & ? & ? & ?). simpl in *. repeat split; auto; lia.
Qed.

(** C4: for every graph, target and depth bound, no node name occurs twice
    among the records returned by findDependentsWithDepth. *)
Theorem C4_no_duplicate_names (g : Graph) (t : string) (K : Z) :
  NoDup (map NodeName (findDependentsWithDepth g t K)).
Proof.
  destruct (findDependentsWithDepth_extends g t K) as (st & -> & new & Hres & Hnd & _).
  simpl in Hres. by rewrite Hres.
Qed.

(** C5: the search starts from a visited map that already holds the
    target's canonical name and the root sentinel, and no returned record
    names either of them, whatever the edges of the graph (self-loops and
    cycles through the target included). *)
Theorem C5_target_and_sentinel_excluded (g : Graph) (t : string) (K : Z) :
  is_visited (seedVisited t) (normalizeNodeName t) = true
  /\ is_visited (seedVisited t) rootSentinel = true
  /\ (exists st,
        searchAtDepth (searchFuel g) g t 0 K (mkState (seedVisited t) []) = Some st
        /\ findDependentsWithDepth g t K = result st)
  /\ Forall (fun r => NodeName r <> normalizeNodeName t /\ NodeName r <> rootSentinel)
            (findDependentsWithDepth g t K).
Proof.
  split; [apply seedVisited_target|]. split; [apply seedVisited_sentinel|].
  split; [apply findDependentsWithDepth_run|].
  eapply Forall_impl; [apply findDependentsWithDepth_records|].
  intros r (Hnv & _). split; intros Heq; rewrite Heq in Hnv.
  - by rewrite seedVisited_target in Hnv.
  - by rewrite seedVisited_sentinel in Hnv.
Qed.

(** C10: the literal name RPM-Packages is marked visited before every
    search, whatever the graph and the target, so no record ever names it,
    also where it is an ordinary node with an edge to the target. *)
Theorem C10_literal_sentinel_never_reported :
  (forall t, is_visited (seedVisited t) "RPM-Packages" = true)
  /\ (forall g t K,
        Forall (fun r => NodeName r <> "RPM-Packages") (findDependentsWithDepth g t K))
  /\ (revPath g_sentinel "T" "RPM-Packages" 1
      /\ findDependentsWithDepth g_sentinel "T" (-1) = [mkDep "A" 1]).
Proof.
  split; [exact seedVisited_sentinel|]. split.
  - intros g t K. eapply Forall_impl; [apply findDependentsWithDepth_records|].
    intros r (Hnv & _) Heq. rewrite Heq in Hnv.
    change "RPM-Packages" with rootSentinel in Hnv.
    by rewrite seedVisited_sentinel in Hnv.
  - split; [|by vm_compute].
    eapply (revPath_step _ _ "T" _ 0 (E "RPM-Packages" "T")); [constructor| |done..].
    unfold g_sentinel; simpl. set_solver.
Qed.

(** ** The recursion descends a branch before its siblings *)

Lemma revPath_edge g t m n k :
  revPath g t m k -> E n m ∈ Edges g ->
  normalizeNodeName m = m -> normalizeNodeName n = n ->
  revPath g t n (S k).
Proof. intros Hp He Hm Hn. by eapply revPath_step. Qed.

(** C1 (the code departs from it): in [g_shortcut] the unbounded search
    records N at depth 3, reached through A and X, although N is two edges
    from T through B. *)
Theorem C1_recorded_depth_not_shortest :
  findDependentsWithDepth g_shortcut "T" (-1)
    = [mkDep "A" 1; mkDep "B" 1; mkDep "X" 2; mkDep "N" 3]
  /\ revPath g_shortcut "T" "N" 2.
Proof.
  split; [by vm_compute|].
  apply (revPath_edge _ _ "B"); [|set_solver|done..].
  apply (revPath_edge _ _ "T"); [constructor|set_solver|done..].
Qed.

(** C2 (the code departs from it): in [g_branches] the record of Y at depth
    3 precedes the record of Z at depth 2. *)
Theorem C2_depths_not_monotone :
  findDependentsWithDepth g_branches "T" (-1)
    = [mkDep "A" 1; mkDep "B" 1; mkDep "X" 2; mkDep "Y" 3; mkDep "Z" 2]
  /\ Depth <$> findDependentsWithDepth g_branches "T" (-1) !! 3%nat = Some 3
  /\ Depth <$> findDependentsWithDepth g_branches "T" (-1) !! 4%nat = Some 2.
Proof. by vm_compute. Qed.

(** C3 (the code departs from it): in [g_cutoff] with bound 3, N is three
    edges from T through B and M, yet no record names it: M was first
    reached at depth 3 through A and X and is not expanded. *)
Theorem C3_node_within_bound_missing :
  findDependentsWithDepth g_cutoff "T" 3
    = [mkDep "A" 1; mkDep "B" 1; mkDep "X" 2; mkDep "M" 3]
  /\ revPath g_cutoff "T" "N" 3
  /\ Forall (fun r => NodeName r <> "N") (findDependentsWithDepth g_cutoff "T" 3).
Proof.
  split; [by vm_compute|]. split.
  - apply (revPath_edge _ _ "M"); [|set_solver|done..].
    apply (revPath_edge _ _ "B"); [|set_solver|done..].
    apply (revPath_edge _ _ "T"); [constructor|set_solver|done..].
  - vm_compute. repeat constructor; discriminate.
Qed.

(** ** A bound no smaller than the node count never cuts the search *)

Lemma unvisited_nodeCount g V : (size (unvisited g V) <= nodeCount g)%nat.
Proof.
  unfold nodeCount. apply subseteq_size. intros n Hn.
  apply elem_of_unvisited in Hn as [_ Hn]. unfold nodeNames. apply elem_of_list_to_set.
  apply list_elem_of_fmap in Hn as (e & -> & He).
  apply list_elem_of_fmap. exists (Src e). split; [done|].
  apply elem_of_app. right. apply list_elem_of_In, in_flat_map.
  exists e. split; [by apply list_elem_of_In|by left].
Qed.

Lemma markDependents_all_visited g t d st :
  size (unvisited g (visited st)) = 0%nat ->
  markDependents (findDirectDependents g t) d st [] = (st, []).
Proof.
  intros Hsz. rewrite markDependents_eq.
  destruct (freshNames_spec (findDirectDependents g t) (visited st)) as (_ & Hin & _).
  destruct (freshNames _ _) as [|n fs].
  - destruct st. simpl. by rewrite app_nil_r.
  - destruct (Hin n) as [Hnv Hsrc]; [left|].
    assert (Hn : n ∈ unvisited g (visited st)).
    { apply elem_of_unvisited. split; [done|].
      apply list_elem_of_fmap in Hsrc as (x & -> & Hx).
      by apply findDirectDependents_srcNames in Hx. }
    apply size_empty_inv in Hsz. set_solver.
Qed.

Lemma forQueue_eq_inv (P : SearchState -> Prop) call1 call2 queue st :
  (forall n s, P s -> call1 n s = call2 n s) ->
  (forall n s s', P s -> call1 n s = Some s' -> P s') ->
  P st -> forQueue call1 queue st = forQueue call2 queue st.
Proof.
  intros Heq Hinv. revert st. induction queue as [|x queue IH]; intros st HP; simpl; [done|].
  rewrite <- (Heq _ _ HP).
  destruct (call1 _ st) as [s1|] eqn:Hc; [|done]. eapply IH, Hinv; eauto.
Qed.

Lemma searchAtDepth_bound_irrelevant fuel g t d K K0 st :
  K0 <= 0 -> 0 < K ->
  d + Z.of_nat (size (unvisited g (visited st))) <= K ->
  searchAtDepth fuel g t d K st = searchAtDepth fuel g t d K0 st.
Proof.
  intros HK0 HK. revert t d st. induction fuel as [|fuel IH]; intros t d st Hinv; [done|].
  simpl. replace (0 <? K0) with false by (symmetry; apply Z.ltb_ge; lia).
  replace (0 <? K) with true by (symmetry; apply Z.ltb_lt; lia). simpl.
  destruct (K <=? d) eqn:Hcut.
  - apply Z.leb_le in Hcut. rewrite markDependents_all_visited by lia. done.
  - apply Z.leb_gt in Hcut.
    destruct (markDependents _ d st []) as [st1 q] eqn:Hm.
    assert (Hst1 : q = [] \/ d + 1 + Z.of_nat (size (unvisited g (visited st1))) <= K).
    { destruct (markDependents_unvisited g t d K st st1 q) as [->|Hsub]; [lia|done|by left|].
      right. apply subset_size in Hsub. lia. }
    destruct Hst1 as [->|Hst1]; [done|].
    apply (forQueue_eq_inv
             (fun s => d + 1 + Z.of_nat (size (unvisited g (visited s))) <= K)); [| |done].
    + intros n s Hs. by apply IH.
    + intros n s s' Hs Hc.
      apply searchAtDepth_extends, extends_unvisited, subseteq_size in Hc. lia.
Qed.

(** C7: for every graph and target, a non-positive bound and a positive
    bound no smaller than the number of nodes of the graph give the same
    record sequence. *)
Theorem C7_unbounded_equals_large_bound (g : Graph) (t : string) (K0 K : Z) :
  K0 <= 0 -> 0 < K -> Z.of_nat (nodeCount g) <= K ->
  findDependentsWithDepth g t K0 = findDependentsWithDepth g t K.
Proof.
  intros HK0 HK Hn. unfold findDependentsWithDepth.
  rewrite (searchAtDepth_bound_irrelevant _ g t 0 K K0); [done..|].
  pose proof (unvisited_nodeCount g (seedVisited t)). simpl. lia.
Qed.

(** C7 at the graph of the spec's example, with bounds -1 and 5. *)
Lemma C7_unbounded_equals_large_bound_witness :
  -1 <= 0 /\ 0 < 5 /\ Z.of_nat (nodeCount g_spec) <= 5
  /\ findDependentsWithDepth g_spec "B" (-1) = findDependentsWithDepth g_spec "B" 5.
Proof.
  assert (H1 : -1 <= 0) by lia.
  assert (H2 : 0 < 5) by lia.
  assert (H3 : Z.of_nat (nodeCount g_spec) <= 5) by (by vm_compute).
  exact (conj H1 (conj H2 (conj H3
    (C7_unbounded_equals_large_bound g_spec "B" (-1) 5 H1 H2 H3)))).
Defined.

(** ** findDirectDependents, edge by edge *)

Lemma findDirectDependents_range_app es1 es2 t V acc :
  findDirectDependents_range (es1 ++ es2) t V acc =
    findDirectDependents_range es2 t (seenAfter es1 t V)
      (findDirectDependents_range es1 t V acc).
Proof.
  revert V acc. induction es1 as [|e es1 IH]; intros V acc; simpl; [done|].
  repeat case_match; apply IH.
Qed.

Lemma seenAfter_visited es t V n :
  is_visited (seenAfter es t V) n = true <->
  is_visited V n = true
  \/ exists e, e ∈ es /\ normalizeNodeName (Dst e) = t /\ normalizeNodeName (Src e) = n.
Proof.
  revert V. induction es as [|e es IH]; intros V; simpl.
  - split; [auto|]. intros [H|(e & He & _)]; [done|inversion He].
  - destruct (decide (normalizeNodeName (Dst e) = t)) as [Hd|Hd].
    + destruct (is_visited V (normalizeNodeName (Src e))) eqn:Hv; simpl; rewrite IH.
      * split; [intros [H|(e' & He' & H)]; [auto|right; exists e'; set_solver]|].
        intros [H|(e' & He' & Hd' & Hs')]; [auto|].
        apply elem_of_cons in He' as [->|He']; [left; congruence|right; eauto].
      * rewrite is_visited_mark_true. split.
        -- intros [[->|H]|(e' & He' & H)]; [right; exists e; set_solver|auto|].
           right. exists e'. set_solver.
        -- intros [H|(e' & He' & Hd' & Hs')]; [auto|].
           apply elem_of_cons in He' as [->|He']; [left; left; congruence|right; eauto].
    + rewrite IH. split.
      * intros [H|(e' & He' & H)]; [auto|right; exists e'; set_solver].
      * intros [H|(e' & He' & Hd' & Hs')]; [auto|].
        apply elem_of_cons in He' as [->|He']; [congruence|right; eauto].
Qed.

(** The edge [e] adds nothing when its destination is another node or when
    its canonical source has been seen. *)
Lemma findDirectDependents_range_skip e rest t V acc :
  normalizeNodeName (Dst e) <> t \/ is_visited V (normalizeNodeName (Src e)) = true ->
  findDirectDependents_range (e :: rest) t V acc = findDirectDependents_range rest t V acc.
Proof.
  intros [Hd|Hv]; simpl.
  - by destruct (decide _).
  - rewrite Hv. by destruct (decide _).
Qed.

Lemma findDirectDependents_snoc_new ns es e t :
  normalizeNodeName (Dst e) = t ->
  (forall e', e' ∈ es -> normalizeNodeName (Dst e') = t ->
              normalizeNodeName (Src e') <> normalizeNodeName (Src e)) ->
  findDirectDependents (mkGraph ns (es ++ [e])) t =
    findDirectDependents (mkGraph ns es) t ++ [Src e].
Proof.
  intros Hd Hnew. unfold findDirectDependents. simpl.
  rewrite findDirectDependents_range_app. simpl.
  destruct (decide _) as [_|]; [|done].
  destruct (is_visited (seenAfter es t ∅) (normalizeNodeName (Src e))) eqn:Hv; [|done].
  apply seenAfter_visited in Hv as [Hv|(e' & He' & Hd' & Hs')].
  - by rewrite is_visited_empty in Hv.
  - by destruct (Hnew e' He' Hd').
Qed.

Lemma findDirectDependents_snoc_old ns es e t :
  normalizeNodeName (Dst e) <> t
  \/ (exists e', e' ∈ es /\ normalizeNodeName (Dst e') = t
                 /\ normalizeNodeName (Src e') = normalizeNodeName (Src e)) ->
  findDirectDependents (mkGraph ns (es ++ [e])) t =
    findDirectDependents (mkGraph ns es) t.
Proof.
  intros H. unfold findDirectDependents. simpl.
  rewrite findDirectDependents_range_app.
  rewrite findDirectDependents_range_skip; [done|].
  destruct H as [H|H]; [by left|right]. apply seenAfter_visited. by right.
Qed.

Lemma findDirectDependents_duplicate ns l1 e l2 l3 t :
  findDirectDependents (mkGraph ns (l1 ++ e :: l2 ++ e :: l3)) t =
    findDirectDependents (mkGraph ns (l1 ++ e :: l2 ++ l3)) t.
Proof.
  unfold findDirectDependents. simpl.
  replace (l1 ++ e :: l2 ++ e :: l3) with ((l1 ++ e :: l2) ++ e :: l3)
    by (by rewrite <- app_assoc).
  replace (l1 ++ e :: l2 ++ l3) with ((l1 ++ e :: l2) ++ l3)
    by (by rewrite <- app_assoc).
  rewrite !findDirectDependents_range_app.
  apply findDirectDependents_range_skip.
  destruct (decide (normalizeNodeName (Dst e) = t)) as [Hd|Hd]; [right|by left].
  apply seenAfter_visited. right. exists e. set_solver.
Qed.

(** The search reads the graph through [findDirectDependents] only. *)
Lemma searchAtDepth_graph_ext fuel g g' t d K st :
  (forall n, findDirectDependents g n = findDirectDependents g' n) ->
  searchAtDepth fuel g t d K st = searchAtDepth fuel g' t d K st.
Proof.
  intros Hg. revert t d st. induction fuel as [|fuel IH]; intros t d st; [done|].
  simpl. rewrite Hg. destruct (_ && _); [done|].
  destruct (markDependents _ d st []) as [st1 q].
  apply (forQueue_eq_inv (fun _ => True)); auto.
Qed.

Lemma findDependentsWithDepth_graph_ext g g' t K :
  (forall n, findDirectDependents g n = findDirectDependents g' n) ->
  findDependentsWithDepth g t K = findDependentsWithDepth g' t K.
Proof.
  intros Hg.
  destruct (findDependentsWithDepth_run g t K) as (st & Hrun & ->).
  destruct (findDependentsWithDepth_run g' t K) as (st' & Hrun' & ->).
  rewrite <- (searchAtDepth_graph_ext _ g g') in Hrun' by done.
  apply (searchAtDepth_fuel_mono _ (searchFuel g + searchFuel g')) in Hrun; [|lia].
  apply (searchAtDepth_fuel_mono _ (searchFuel g + searchFuel g')) in Hrun'; [|lia].
  congruence.
Qed.

(** C8 (as stated, refuted): with the edge from A to T declared twice, the
    sources of the edges into T are A and A, but findDirectDependents
    returns A once. *)
Lemma C8_duplicate_sources_dropped :
  map Src (filter (fun e => normalizeNodeName (Dst e) = "T") (Edges g_twice)) = ["A"; "A"]
  /\ findDirectDependents g_twice "T" = ["A"]
  /\ findDirectDependents g_twice "T"
       <> map Src (filter (fun e => normalizeNodeName (Dst e) = "T") (Edges g_twice)).
Proof. by vm_compute. Qed.

(** A copy declared before the edge is another matter: it moves the source
    forward in the order of the direct dependents and of the records. *)
Example duplicate_declared_before_reorders :
  findDependentsWithDepth (mkGraph [] [E "A" "T"; E "B" "T"]) "T" (-1)
    = [mkDep "A" 1; mkDep "B" 1]
  /\ findDependentsWithDepth (mkGraph [] [E "B" "T"; E "A" "T"; E "B" "T"]) "T" (-1)
    = [mkDep "B" 1; mkDep "A" 1].
Proof. by vm_compute. Qed.

(** C8 (amended): findDirectDependents goes through the edges in declaration
    order and returns the source, as the edge spells it, of the first edge
    into the node for each canonical source name; an edge into another node,
    or one whose canonical source an earlier edge into the node had, adds
    nothing.  Declaring an edge once more anywhere after it leaves the result
    of findDependentsWithDepth unchanged. *)
Theorem C8_direct_dependents_first_per_source :
  (forall ns t, findDirectDependents (mkGraph ns []) t = [])
  /\ (forall ns es e t,
        normalizeNodeName (Dst e) = t ->
        (forall e', e' ∈ es -> normalizeNodeName (Dst e') = t ->
                    normalizeNodeName (Src e') <> normalizeNodeName (Src e)) ->
        findDirectDependents (mkGraph ns (es ++ [e])) t =
          findDirectDependents (mkGraph ns es) t ++ [Src e])
  /\ (forall ns es e t,
        normalizeNodeName (Dst e) <> t
        \/ (exists e', e' ∈ es /\ normalizeNodeName (Dst e') = t
                       /\ normalizeNodeName (Src e') = normalizeNodeName (Src e)) ->
        findDirectDependents (mkGraph ns (es ++ [e])) t =
          findDirectDependents (mkGraph ns es) t)
  /\ (forall ns l1 e l2 l3 t K,
        findDependentsWithDepth (mkGraph ns (l1 ++ e :: l2 ++ e :: l3)) t K =
          findDependentsWithDepth (mkGraph ns (l1 ++ e :: l2 ++ l3)) t K).
Proof.
  split; [done|]. split; [exact findDirectDependents_snoc_new|].
  split; [exact findDirectDependents_snoc_old|].
  intros ns l1 e l2 l3 t K. apply findDependentsWithDepth_graph_ext.
  intros n. apply findDirectDependents_duplicate.
Qed.

(** ** Run: the not-found error *)

Lemma findExactPackage_found g p :
  snd (findExactPackage g p) = true <->
  exists n, n ∈ Lookup g /\ normalizeNodeName n = p.
Proof.
  unfold findExactPackage. induction (Lookup g) as [|k keys IH]; simpl.
  - split; [done|]. intros (n & Hn & _). inversion Hn.
  - destruct (decide (normalizeNodeName k = p)) as [Hk|Hk]; simpl.
    + split; [|done]. intros _. exists k. set_solver.
    + rewrite IH. split; intros (n & Hn & Hp); exists n; [set_solver|].
      apply elem_of_cons in Hn as [->|Hn]; done.
Qed.

Lemma findExactPackage_name g p :
  snd (findExactPackage g p) = true -> fst (findExactPackage g p) = p.
Proof.
  unfold findExactPackage. induction (Lookup g) as [|k keys IH]; simpl; [done|].
  by destruct (decide (normalizeNodeName k = p)).
Qed.

(** C6: once the graph is built, Run returns the not-found error exactly
    when no node's canonical name equals the target name as given; it then
    prints nothing; when some node matches, Run returns no error and prints
    the report of the search; Run makes no other error of its own, and an
    error of reading, parsing or analysing is returned as it is, nothing
    printed.  In [g_quoted], whose node is written with quotes, the target
    libfoo is found; a prefix of it, another case of it, and the spelling
    with the quotes are not. *)
Theorem C6_not_found_iff_no_exact_match (g : Graph) (target : string) (K : Z) :
  (snd (Run (inr g) target K) = Some (errorsNew (notFoundText target)) <->
     forall n, n ∈ Lookup g -> normalizeNodeName n <> target)
  /\ ((forall n, n ∈ Lookup g -> normalizeNodeName n <> target) ->
      Run (inr g) target K = ([], Some (errorsNew (notFoundText target))))
  /\ ((exists n, n ∈ Lookup g /\ normalizeNodeName n = target) ->
      Run (inr g) target K = (report (findDependentsWithDepth g target K), None))
  /\ (forall err, snd (Run (inr g) target K) = Some err ->
                  err = errorsNew (notFoundText target))
  /\ (forall err, Run (inl err) target K = ([], Some err))
  /\ (snd (Run (inr g_quoted) "libfoo" K) = None
      /\ snd (Run (inr g_quoted) "libfo" K) = Some (errorsNew (notFoundText "libfo"))
      /\ snd (Run (inr g_quoted) "LIBFOO" K) = Some (errorsNew (notFoundText "LIBFOO"))
      /\ snd (Run (inr g_quoted) (quoted "libfoo") K)
           = Some (errorsNew (notFoundText (quoted "libfoo")))).
Proof.
  pose proof (findExactPackage_found g target) as Hfound.
  unfold Run. destruct (snd (findExactPackage g target)) eqn:Hf; simpl.
  - assert (Hex : exists n, n ∈ Lookup g /\ normalizeNodeName n = target) by by apply Hfound.
    split; [|split; [|split; [|split]]]; try done.
    + split; [done|]. intros Hno. destruct Hex as (n & Hn & Hp). by destruct (Hno n Hn).
    + intros Hno. destruct Hex as (n & Hn & Hp). by destruct (Hno n Hn).
  - assert (Hno : forall n, n ∈ Lookup g -> normalizeNodeName n <> target).
    { intros n Hn Hp. assert (false = true) by (apply Hfound; eauto). done. }
    split; [|split; [|split; [|split]]]; try done.
    + intros (n & Hn & Hp). by destruct (Hno n Hn).
    + by intros err [= <-].
Qed.

(** ** The report *)

Lemma printMembers_imap deps i :
  printMembers deps i =
    imap (fun k r => DepthMember (i + Z.of_nat k + 1) (NodeName r)) deps.
Proof.
  revert i. induction deps as [|dep deps IH]; intros i; [done|].
  simpl printMembers. rewrite imap_cons, IH. f_equal; [f_equal; lia|].
  apply imap_ext. intros k r _. simpl. f_equal. lia.
Qed.

Lemma printDepths_groups ds m :
  printDepths ds m =
    flat_map (fun d => groupLines d (depthGroup m d))
             (filter (fun d => depthGroup m d <> []) ds).
Proof.
  induction ds as [|d ds IH]; [done|]. simpl printDepths.
  destruct (decide (length (depthGroup m d) = 0%nat)) as [Hlen|Hlen].
  - rewrite filter_cons_False; [done|]. intros Hne. apply Hne.
    by apply length_zero_iff_nil.
  - rewrite filter_cons_True by (intros Hnil; by rewrite Hnil in Hlen).
    simpl. rewrite <- IH. unfold groupLines. simpl. f_equal. f_equal.
    rewrite printMembers_imap. apply imap_ext. intros k r _. simpl. f_equal.
Qed.

Lemma headerDepths_members (idx : nat -> Z) (members : list DependentWithDepth) :
  headerDepths (imap (fun i r => DepthMember (idx i) (NodeName r)) members) = [].
Proof.
  revert idx. induction members as [|r rs IH]; intros idx; [done|].
  rewrite imap_cons. simpl. apply (IH (idx ∘ S)).
Qed.

Lemma headerDepths_app out1 out2 :
  headerDepths (out1 ++ out2) = headerDepths out1 ++ headerDepths out2.
Proof. apply omap_app. Qed.

Lemma headerDepths_groupLines d members : headerDepths (groupLines d members) = [d].
Proof.
  unfold groupLines. change (DepthHeader ?d ?n :: ?l) with ([DepthHeader d n] ++ l).
  rewrite headerDepths_app. by rewrite (headerDepths_members (fun i => Z.of_nat i + 1)).
Qed.

Lemma headerDepths_groups (f : Z -> list DependentWithDepth) ds :
  headerDepths (flat_map (fun d => groupLines d (f d)) ds) = ds.
Proof.
  induction ds as [|d ds IH]; [done|].
  change (flat_map ?h (d :: ds)) with (h d ++ flat_map h ds). cbv beta.
  by rewrite headerDepths_app, headerDepths_groupLines, IH.
Qed.

Lemma depthGroup_insert m d d' l :
  depthGroup (<[d := l]> m) d' = if decide (d = d') then l else depthGroup m d'.
Proof. unfold depthGroup. rewrite lookup_insert. by case_decide. Qed.

Lemma groupByDepth_spec deps m a m' a' :
  groupByDepth deps m a = (m', a') ->
  (forall d, depthGroup m' d = depthGroup m d ++ membersAt d deps)
  /\ a <= a'
  /\ Forall (fun r => Depth r <= a') deps
  /\ (a' = a \/ exists r, r ∈ deps /\ Depth r = a').
Proof.
  revert m a. induction deps as [|dep deps IH]; intros m a; simpl.
  - intros [= <- <-]. split; [intros d; by rewrite app_nil_r|].
    split; [lia|]. split; [constructor|by left].
  - intros Hg. apply IH in Hg as (Hm & Ha & Hall & Hmax).
    assert (Hstep : a <= (if a <? Depth dep then Depth dep else a)
                    /\ Depth dep <= (if a <? Depth dep then Depth dep else a)).
    { destruct (a <? Depth dep) eqn:Hlt;
        [apply Z.ltb_lt in Hlt|apply Z.ltb_ge in Hlt]; lia. }
    split; [|split; [lia|split]].
    + intros d. rewrite Hm, depthGroup_insert. unfold membersAt.
      destruct (decide (Depth dep = d)) as [Hd|Hd].
      * rewrite filter_cons_True by done. subst d. by rewrite <- app_assoc.
      * by rewrite filter_cons_False by done.
    + constructor; [lia|done].
    + destruct Hmax as [->|(r & Hr & Hd)]; [|right; exists r; set_solver].
      destruct (a <? Depth dep); [right; exists dep; set_solver|by left].
Qed.

Lemma report_groups records :
  exists a,
    report records =
      flat_map (fun d => groupLines d (membersAt d records))
               (filter (fun d => membersAt d records <> []) (seqZ 1 a))
    /\ Forall (fun r => Depth r <= a) records.
Proof.
  unfold report. destruct (groupByDepth records ∅ 0) as [m a] eqn:Hg.
  apply groupByDepth_spec in Hg as (Hm & _ & Hall & _). exists a. split; [|done].
  assert (Hgrp : forall d, depthGroup m d = membersAt d records).
  { intros d. rewrite Hm. unfold depthGroup. by rewrite lookup_empty. }
  rewrite printDepths_groups.
  rewrite (list_filter_iff _ (fun d => membersAt d records <> []))
    by (intros d; by rewrite Hgrp).
  apply flat_map_ext. intros d. by rewrite Hgrp.
Qed.

Lemma StronglySorted_seqZ m n : StronglySorted Z.lt (seqZ m n).
Proof.
  destruct (decide (n <= 0)) as [Hn|Hn]; [rewrite seqZ_nil by lia; constructor|].
  rewrite <- (Z2Nat.id n) by lia. generalize (Z.to_nat n). clear. intros k.
  induction k as [|k IH]; [constructor|].
  rewrite seqZ_S. apply StronglySorted_app. split; [|split; [done|repeat constructor]].
  intros x y Hx Hy. apply elem_of_seqZ in Hx. apply list_elem_of_singleton in Hy. lia.
Qed.

Lemma StronglySorted_filter_lt (P : Z -> Prop) `{!forall d, Decision (P d)} ds :
  StronglySorted Z.lt ds -> StronglySorted Z.lt (filter P ds).
Proof.
  induction 1 as [|d ds Hs IH Hd]; [constructor|].
  destruct (decide (P d)).
  - rewrite filter_cons_True by done. constructor; [done|].
    apply Forall_forall. intros x Hx. apply list_elem_of_filter in Hx as [_ Hx].
    by eapply Forall_forall in Hd.
  - by rewrite filter_cons_False.
Qed.

Lemma membersAt_nonempty d records :
  membersAt d records <> [] <-> exists r, r ∈ records /\ Depth r = d.
Proof.
  unfold membersAt. split.
  - destruct (filter _ records) as [|r rs] eqn:Hf; [done|]. intros _.
    assert (Hr : r ∈ filter (fun r => Depth r = d) records) by (rewrite Hf; left).
    apply list_elem_of_filter in Hr as [Hd Hr]. eauto.
  - intros (r & Hr & Hd) Hnil.
    assert (Hin : r ∈ filter (fun r => Depth r = d) records)
      by (by apply list_elem_of_filter).
    rewrite Hnil in Hin. inversion Hin.
Qed.

Lemma report_spec records :
  report records =
    flat_map (fun d => groupLines d (membersAt d records)) (headerDepths (report records))
  /\ StronglySorted Z.lt (headerDepths (report records))
  /\ (forall d, d ∈ headerDepths (report records) <->
                1 <= d /\ exists r, r ∈ records /\ Depth r = d).
Proof.
  destruct (report_groups records) as (a & Hout & Hall).
  assert (Hh : headerDepths (report records)
               = filter (fun d => membersAt d records <> []) (seqZ 1 a)).
  { rewrite Hout at 1. apply (headerDepths_groups (fun d => membersAt d records)). }
  rewrite Hh. split; [done|]. split.
  - apply StronglySorted_filter_lt, StronglySorted_seqZ.
  - intros d. rewrite list_elem_of_filter, elem_of_seqZ, membersAt_nonempty.
    split; [intros [He Hd]; split; [lia|done]|].
    intros [Hd (r & Hr & Hdr)]. split; [eauto|].
    eapply Forall_forall in Hall; [|exact Hr]. lia.
Qed.

Lemma findDirectDependents_no_edge g t :
  (forall e, e ∈ Edges g -> normalizeNodeName (Dst e) <> t) ->
  findDirectDependents g t = [].
Proof.
  unfold findDirectDependents. generalize (∅ : gmap string bool).
  induction (Edges g) as [|e es IH]; intros V Hno; [done|]. simpl.
  destruct (decide _) as [Hd|_]; [destruct (Hno e); [left|done]|].
  apply IH. intros e' He'. apply Hno. by right.
Qed.

Lemma findDependentsWithDepth_first g t K :
  findDependentsWithDepth g t K = []
  \/ exists n rest, findDependentsWithDepth g t K = mkDep n 1 :: rest.
Proof.
  destruct (findDependentsWithDepth_run g t K) as (st & Hrun & ->).
  unfold searchFuel in Hrun. simpl in Hrun.
  destruct ((0 <? K) && (K <=? 0)); [injection Hrun as <-; by left|].
  rewrite markDependents_eq in Hrun. simpl in Hrun.
  destruct (freshNames _ _) as [|n fs].
  - simpl in Hrun. injection Hrun as <-. by left.
  - apply (forQueue_extends g 1 K) in Hrun as (new & -> & _);
      [|intros ? ? ? Hc; by apply searchAtDepth_extends in Hc].
    right. simpl. eauto.
Qed.

Lemma findDependentsWithDepth_no_edge g t K :
  (forall e, e ∈ Edges g -> normalizeNodeName (Dst e) <> t) ->
  findDependentsWithDepth g t K = [].
Proof.
  intros Hno. destruct (findDependentsWithDepth_run g t K) as (st & Hrun & ->).
  unfold searchFuel in Hrun. simpl in Hrun.
  destruct ((0 <? K) && (K <=? 0)); [by injection Hrun as <-|].
  rewrite findDirectDependents_no_edge in Hrun by done. simpl in Hrun.
  by injection Hrun as <-.
Qed.

(** C9: the report of a record sequence is its depth tiers one after the
    other: each tier is a header with the depth and the member count and
    then the records of that depth in the order of the sequence, numbered
    from 1; the tiers come in strictly increasing depth, one for each depth
    from 1 up that some record has and none for any other depth.  The
    records of a search all have depth 1 or more, and when there are any the
    first tier is that of depth 1.  The empty sequence, which is what a
    target with no incoming edge gives, has the empty report. *)
Theorem C9_report_depth_tiers :
  (forall records,
      report records =
        flat_map (fun d => groupLines d (membersAt d records))
                 (headerDepths (report records))
      /\ StronglySorted Z.lt (headerDepths (report records))
      /\ (forall d, d ∈ headerDepths (report records) <->
                    1 <= d /\ exists r, r ∈ records /\ Depth r = d))
  /\ (forall g t K,
        Forall (fun r => 1 <= Depth r) (findDependentsWithDepth g t K)
        /\ (findDependentsWithDepth g t K = []
            \/ exists rest,
                 headerDepths (report (findDependentsWithDepth g t K)) = 1 :: rest))
  /\ report [] = []
  /\ (forall g t K,
        (forall e, e ∈ Edges g -> normalizeNodeName (Dst e) <> t) ->
        findDependentsWithDepth g t K = []
        /\ fst (Run (inr g) t K) = []).
Proof.
  split; [exact report_spec|]. split; [|split; [done|]].
  - intros g t K. split.
    { eapply Forall_impl; [apply findDependentsWithDepth_records|]. by intros r (_ & ? & _). }
    destruct (findDependentsWithDepth_first g t K) as [Hnil|(n & rest & Hres)]; [by left|].
    right. destruct (report_spec (findDependentsWithDepth g t K)) as (_ & Hsort & Hmem).
    assert (H1 : 1 ∈ headerDepths (report (findDependentsWithDepth g t K))).
    { apply Hmem. split; [lia|]. exists (mkDep n 1). rewrite Hres. split; [left|done]. }
    destruct (headerDepths _) as [|d ds]; [inversion H1|]. exists ds. f_equal.
    assert (1 <= d) by (apply Hmem; left).
    apply elem_of_cons in H1 as [->|H1]; [done|].
    apply StronglySorted_cons in Hsort as [Hd _].
    eapply Forall_forall in Hd; [|exact H1]. lia.
  - intros g t K Hno. rewrite (findDependentsWithDepth_no_edge g t K Hno).
    split; [done|]. unfold Run. simpl.
    destruct (snd (findExactPackage g t)); [|done].
    by rewrite (findDependentsWithDepth_no_edge g t K Hno).
Qed.


(** ** Canonical names are fixed points of normalizeNodeName *)

Lemma trimRightByte_idemp s c : trimRightByte (trimRightByte s c) c = trimRightByte s c.
Proof.
  induction s as [|b rest IH]; [done|]. simpl.
  destruct (trimRightByte rest c) as [|k ks] eqn:Hr.
  - destruct (Ascii.eqb b c) eqn:Hb; [done|]. simpl. by rewrite Hb.
  - simpl. simpl in IH. by rewrite IH.
Qed.

Lemma trimLeftByte_idemp s c : trimLeftByte (trimLeftByte s c) c = trimLeftByte s c.
Proof.
  induction s as [|b rest IH]; [done|]. simpl.
  destruct (Ascii.eqb b c) eqn:Hb; [done|]. simpl. by rewrite Hb.
Qed.

Lemma trimRightByte_trimLeftByte s c :
  trimRightByte s c = s -> trimRightByte (trimLeftByte s c) c = trimLeftByte s c.
Proof.
  induction s as [|b rest IH]; [done|]. intros Hs. simpl.
  destruct (Ascii.eqb b c) eqn:Hb; [|done].
  apply IH. simpl in Hs. rewrite Hb in Hs.
  destruct (trimRightByte rest c); [done|]. by injection Hs.
Qed.

Lemma normalizeNodeName_idemp name :
  normalizeNodeName (normalizeNodeName name) = normalizeNodeName name.
Proof.
  unfold normalizeNodeName.
  rewrite trimRightByte_trimLeftByte by apply trimRightByte_idemp.
  apply trimLeftByte_idemp.
Qed.

(** ** Every record lies on a reverse path of its depth *)

Lemma forQueue_inv (P : SearchState -> Prop) (Q : string -> Prop) call queue st st' :
  (forall x s s', Q x -> P s ->
     call (normalizeNodeName (normalizeNodeName x)) s = Some s' -> P s') ->
  Forall Q queue -> P st -> forQueue call queue st = Some st' -> P st'.
Proof.
  intros Hcall HQ. revert st. induction HQ as [|x queue Hx HQ IH]; intros st HP; simpl.
  - by intros [= <-].
  - destruct (call _ st) as [s1|] eqn:Hc; [|done]. apply IH. eauto.
Qed.

Lemma findDirectDependents_range_edge edges t V acc x :
  x ∈ findDirectDependents_range edges t V acc ->
  x ∈ acc \/ exists e, e ∈ edges /\ Src e = x /\ normalizeNodeName (Dst e) = t.
Proof.
  revert V acc. induction edges as [|e edges IH]; intros V acc; simpl; [auto|].
  intros Hx. destruct (decide (normalizeNodeName (Dst e) = t)) as [Hd|Hd].
  - destruct (negb _); apply IH in Hx as [Hx|(e' & He' & H)];
      try (right; exists e'; set_solver); [|by left].
    apply elem_of_app in Hx as [Hx|Hx]; [by left|].
    apply list_elem_of_singleton in Hx as ->. right. exists e. set_solver.
  - apply IH in Hx as [Hx|(e' & He' & H)]; [by left|right; exists e'; set_solver].
Qed.

Lemma findDirectDependents_edge g t x :
  x ∈ findDirectDependents g t ->
  exists e, e ∈ Edges g /\ Src e = x /\ normalizeNodeName (Dst e) = t.
Proof.
  intros Hx. by apply findDirectDependents_range_edge in Hx as [Hx|Hx]; [inversion Hx|].
Qed.

Lemma searchAtDepth_sound fuel g t0 m d K st st' :
  0 <= d -> revPath g t0 m (Z.to_nat d) ->
  Forall (fun r => revPath g t0 (NodeName r) (Z.to_nat (Depth r))) (result st) ->
  searchAtDepth fuel g m d K st = Some st' ->
  Forall (fun r => revPath g t0 (NodeName r) (Z.to_nat (Depth r))) (result st').
Proof.
  revert m d st st'. induction fuel as [|fuel IH]; intros m d st st' Hd Hm Hst; [done|].
  simpl. destruct (_ && _); [by intros [= <-]|].
  rewrite markDependents_eq.
  destruct (freshNames_spec (findDirectDependents g m) (visited st)) as (_ & Hin & _).
  assert (Hfresh : Forall (fun n => revPath g t0 n (Z.to_nat (d + 1)))
                          (freshNames (findDirectDependents g m) (visited st))).
  { apply Forall_forall. intros n Hn. destruct (Hin n Hn) as [_ Hsrc].
    apply list_elem_of_fmap in Hsrc as (x & -> & Hx).
    apply findDirectDependents_edge in Hx as (e & He & <- & Hdst).
    replace (Z.to_nat (d + 1)) with (S (Z.to_nat d)) by lia.
    by eapply revPath_step. }
  intros Hq.
  eapply (forQueue_inv
            (fun s => Forall (fun r => revPath g t0 (NodeName r) (Z.to_nat (Depth r)))
                             (result s))
            (fun n => revPath g t0 n (Z.to_nat (d + 1)))); [| | |exact Hq].
  - intros x s s' Hx Hs Hc.
    eapply (IH _ (d + 1) s s'); [lia| |done|exact Hc].
    replace (Z.to_nat (d + 1)) with (S (Z.to_nat d)) in * by lia.
    inversion Hx as [|m' n k e Hp He Hdst Hsrc]; subst.
    rewrite !normalizeNodeName_idemp. by eapply revPath_step.
  - rewrite app_nil_l. exact Hfresh.
  - simpl. apply Forall_app. split; [done|].
    unfold recordsAt. apply Forall_fmap. exact Hfresh.
Qed.

(** X3: every record of a search names a node from which as many edges as
    its depth lead to the target: the recorded depth is the length of some
    reverse path, so it is never below the shortest one. *)
Theorem records_lie_on_reverse_paths (g : Graph) (t : string) (K : Z) :
  Forall (fun r => revPath g t (NodeName r) (Z.to_nat (Depth r)))
         (findDependentsWithDepth g t K).
Proof.
  destruct (findDependentsWithDepth_run g t K) as (st & Hrun & ->).
  eapply searchAtDepth_sound; [| | |exact Hrun]; [lia|constructor|constructor].
Qed.

(** X2: every depth is at least 1 and, under a positive bound, at most the
    bound. *)
Theorem depths_within_bound (g : Graph) (t : string) (K : Z) :
  Forall (fun r => 1 <= Depth r /\ (0 < K -> Depth r <= K))
         (findDependentsWithDepth g t K).
Proof.
  eapply Forall_impl; [apply findDependentsWithDepth_records|].
  intros r (_ & ? & ? & _). auto.
Qed.

(** ** Depths stay below the number of edges *)

Lemma searchAtDepth_depth_le fuel g t d K B st st' :
  d + Z.of_nat (size (unvisited g (visited st))) <= B ->
  Forall (fun r => Depth r <= B) (result st) ->
  searchAtDepth fuel g t d K st = Some st' ->
  Forall (fun r => Depth r <= B) (result st').
Proof.
  revert t d st st'. induction fuel as [|fuel IH]; intros t d st st' HB Hst; [done|].
  simpl. destruct ((0 <? K) && (K <=? d)) eqn:Hcut; [by intros [= <-]|].
  assert (HK : ~ (0 < K /\ K <= d)).
  { apply andb_false_iff in Hcut as [H|H]; [apply Z.ltb_ge in H|apply Z.leb_gt in H]; lia. }
  destruct (markDependents _ d st []) as [st1 q] eqn:Hm. intros Hq.
  destruct (markDependents_unvisited _ _ _ _ _ _ _ HK Hm) as [->|Hsub].
  - simpl in Hq. injection Hq as <-. rewrite markDependents_eq in Hm.
    injection Hm as <- Hfs. simpl in *. rewrite Hfs. by rewrite app_nil_r.
  - apply subset_size in Hsub.
    assert (Hst1 : Forall (fun r => Depth r <= B) (result st1)).
    { rewrite markDependents_eq in Hm. injection Hm as <- _. simpl.
      apply Forall_app. split; [done|]. unfold recordsAt. apply Forall_fmap.
      apply Forall_forall. intros n _. simpl. lia. }
    apply (forQueue_inv
             (fun s => d + 1 + Z.of_nat (size (unvisited g (visited s))) <= B
                       /\ Forall (fun r => Depth r <= B) (result s))
             (fun _ => True)) in Hq; [tauto| | |split; [lia|done]].
    + intros x s s' _ [Hs1 Hs2] Hc. split; [|by eapply IH].
      apply searchAtDepth_extends, extends_unvisited, subseteq_size in Hc. lia.
    + apply Forall_forall. done.
Qed.

(** X4: no depth exceeds the number of edges of the graph, so the additions
    [currentDepth + 1] stay far inside the range of a Go int. *)
Theorem depths_at_most_edge_count (g : Graph) (t : string) (K : Z) :
  Forall (fun r => Depth r <= Z.of_nat (length (Edges g)))
         (findDependentsWithDepth g t K).
Proof.
  destruct (findDependentsWithDepth_run g t K) as (st & Hrun & ->).
  eapply searchAtDepth_depth_le; [| |exact Hrun]; [|constructor].
  pose proof (unvisited_size_edges g (seedVisited t)). simpl. lia.
Qed.

(** X1: the search returns: with the fuel of findDependentsWithDepth, and with
    any larger fuel, searchAtDepth yields the same final state. *)
Theorem search_returns (g : Graph) (t : string) (K : Z) :
  exists st,
    findDependentsWithDepth g t K = result st
    /\ forall fuel, (searchFuel g <= fuel)%nat ->
         searchAtDepth fuel g t 0 K (mkState (seedVisited t) []) = Some st.
Proof.
  destruct (findDependentsWithDepth_run g t K) as (st & Hrun & ->).
  exists st. split; [done|]. intros fuel Hle.
  by apply (searchAtDepth_fuel_mono (searchFuel g)).
Qed.

(** ** The unbounded search reaches every dependent *)

Lemma findDirectDependents_range_acc edges t V acc :
  findDirectDependents_range edges t V acc =
    acc ++ findDirectDependents_range edges t V [].
Proof.
  revert V acc. induction edges as [|e edges IH]; intros V acc; simpl.
  - by rewrite app_nil_r.
  - repeat case_match; try apply IH.
    rewrite IH, (IH _ [_]). by rewrite <- app_assoc.
Qed.

Lemma findDirectDependents_range_covers edges t V e :
  e ∈ edges -> normalizeNodeName (Dst e) = t ->
  is_visited V (normalizeNodeName (Src e)) = true
  \/ normalizeNodeName (Src e)
       ∈ map normalizeNodeName (findDirectDependents_range edges t V []).
Proof.
  revert V. induction edges as [|e0 edges IH]; intros V He Hd; [inversion He|].
  simpl. apply elem_of_cons in He as [->|He].
  - destruct (decide _) as [_|]; [|done].
    destruct (is_visited V (normalizeNodeName (Src e0))) eqn:Hv; [by left|right].
    simpl. rewrite findDirectDependents_range_acc. simpl. left.
  - destruct (decide _) as [Hd0|_]; [|by apply IH].
    destruct (is_visited V (normalizeNodeName (Src e0))) eqn:Hv; simpl; [by apply IH|].
    rewrite findDirectDependents_range_acc. simpl.
    destruct (IH (mark V (normalizeNodeName (Src e0))) He Hd) as [Hm|Hm].
    + apply is_visited_mark_true in Hm as [->|Hm]; [right; left|by left].
    + right. by right.
Qed.

Lemma closedAt_mono g V V' m :
  (forall n, is_visited V n = true -> is_visited V' n = true) ->
  closedAt g V m -> closedAt g V' m.
Proof. intros Hmono Hc e He Hd. by apply Hmono, Hc. Qed.

Lemma markDependents_closes g m d st :
  closedAt g (visited (fst (markDependents (findDirectDependents g m) d st []))) m.
Proof.
  rewrite markDependents_eq. simpl. intros e He Hd.
  apply is_visited_foldl_mark.
  destruct (findDirectDependents_range_covers (Edges g) m ∅ e He Hd) as [Hv|Hin].
  { by rewrite is_visited_empty in Hv. }
  apply list_elem_of_fmap in Hin as (x & Hx & Hin).
  destruct (freshNames_spec (findDirectDependents g m) (visited st)) as (_ & _ & Hall).
  rewrite Hx. by apply Hall.
Qed.

Lemma extends_visited_mono g d K st st' n :
  extends g d K st st' -> is_visited (visited st) n = true ->
  is_visited (visited st') n = true.
Proof. intros (new & _ & _ & Hv & _) Hn. apply Hv. by left. Qed.

Lemma forQueue_expanded g d K call queue st st' :
  (forall n s s', call n s = Some s' -> extends g d K s s' /\ expanded g n s s') ->
  forQueue call queue st = Some st' ->
  exists added,
    result st' = result st ++ added
    /\ Forall (fun x => closedAt g (visited st')
                         (normalizeNodeName (normalizeNodeName x))) queue
    /\ Forall (fun r => closedAt g (visited st') (NodeName r)) added.
Proof.
  intros Hcall. revert st. induction queue as [|x queue IH]; intros st; simpl.
  - intros [= <-]. exists []. by rewrite app_nil_r.
  - destruct (call _ st) as [s1|] eqn:Hc; [|done]. intros Hq.
    destruct (Hcall _ _ _ Hc) as (_ & new & Hres & Hx & Hnew).
    destruct (IH _ Hq) as (added & Hres' & Hqs & Hadded).
    assert (Hmono : forall n, is_visited (visited s1) n = true ->
                              is_visited (visited st') n = true).
    { intros n. eapply extends_visited_mono, (forQueue_extends g d K); [|exact Hq].
      intros ? ? ? Hc'. exact (proj1 (Hcall _ _ _ Hc')). }
    exists (new ++ added). split; [by rewrite Hres', Hres, app_assoc|].
    split; [constructor; [by eapply closedAt_mono|done]|].
    apply Forall_app. split; [|done].
    eapply Forall_impl; [exact Hnew|]. intros r. by apply closedAt_mono.
Qed.

Lemma searchAtDepth_expanded fuel g m d K st st' :
  K <= 0 -> searchAtDepth fuel g m d K st = Some st' -> expanded g m st st'.
Proof.
  intros HK. revert m d st st'. induction fuel as [|fuel IH]; intros m d st st'; [done|].
  simpl. replace (0 <? K) with false by (symmetry; apply Z.ltb_ge; lia). simpl.
  pose proof (markDependents_closes g m d st) as Hclosed.
  destruct (markDependents _ d st []) as [st1 q] eqn:Hm. simpl in Hclosed. intros Hq.
  assert (Hmono : forall n, is_visited (visited st1) n = true ->
                            is_visited (visited st') n = true).
  { intros n. eapply extends_visited_mono, (forQueue_extends g (d + 1) K); [|exact Hq].
    intros ? ? ? Hc. by apply searchAtDepth_extends in Hc. }
  apply (forQueue_expanded g (d + 1) K) in Hq as (added & Hres & Hqs & Hadded).
  2:{ intros n s s' Hc. split; [by apply searchAtDepth_extends in Hc|by eapply IH]. }
  rewrite markDependents_eq in Hm. injection Hm as <- <-. simpl in *.
  exists (recordsAt (d + 1) (freshNames (findDirectDependents g m) (visited st)) ++ added).
  split; [by rewrite Hres, app_assoc|]. split; [by eapply closedAt_mono|].
  apply Forall_app. split; [|done].
  unfold recordsAt. apply Forall_fmap. simpl.
  destruct (freshNames_spec (findDirectDependents g m) (visited st)) as (_ & Hin & _).
  apply Forall_forall. intros n Hn. simpl.
  eapply Forall_forall in Hqs; [|exact Hn].
  destruct (Hin n Hn) as [_ Hsrc]. apply list_elem_of_fmap in Hsrc as (x & -> & _).
  by rewrite !normalizeNodeName_idemp in Hqs.
Qed.

(** X5: with a non-positive bound, every node that a reverse path of at least
    one edge reaches from the target, through nodes named neither like the
    target nor like the sentinel, is recorded. *)
Theorem unbounded_search_reaches_all (g : Graph) (t n : string) (k : nat) (K : Z) :
  K <= 0 -> livePath g t n (S k) ->
  n ∈ map NodeName (findDependentsWithDepth g t K).
Proof.
  intros HK Hpath.
  destruct (findDependentsWithDepth_run g t K) as (st & Hrun & ->).
  pose proof (searchAtDepth_extends _ _ _ _ _ _ _ Hrun) as (new & Hres & _ & Hv & _).
  apply searchAtDepth_expanded in Hrun as (new' & Hres' & Ht & Hnew); [|done].
  simpl in *. subst new'. rewrite Hres in *.
  assert (Hall : forall m j, livePath g t m j ->
                   (m = t /\ j = 0%nat) \/ m ∈ map NodeName new).
  { intros m j Hp. induction Hp as [|m' n' j e Hp IHp He Hd Hs Hlive]; [by left|].
    right. assert (Hvis : is_visited (visited st) n' = true).
    { destruct IHp as [[-> _]|Hm'].
      - rewrite <- Hs. by apply Ht.
      - apply list_elem_of_fmap in Hm' as (r & -> & Hr).
        eapply Forall_forall in Hnew; [|exact Hr]. rewrite <- Hs. by apply Hnew. }
    apply Hv in Hvis as [Hseed|Hin]; [congruence|done]. }
  destruct (Hall _ _ Hpath) as [[_ ?]|Hin]; [lia|done].
Qed.

(** X5 at the graph of the spec's example: D is two edges from B. *)
Lemma unbounded_search_reaches_all_witness :
  -1 <= 0 /\ livePath g_spec "B" "D" 2
  /\ "D" ∈ map NodeName (findDependentsWithDepth g_spec "B" (-1)).
Proof.
  assert (H1 : -1 <= 0) by lia.
  assert (H2 : livePath g_spec "B" "D" 2).
  { apply (livePath_step _ _ "A" _ 1%nat (E "D" "A")); [|set_solver|done..].
    apply (livePath_step _ _ "B" _ 0%nat (E "A" "B")); [constructor|set_solver|done..]. }
  exact (conj H1 (conj H2 (unbounded_search_reaches_all g_spec "B" "D" 1 (-1) H1 H2))).
Defined.

(** ** The bound against the number of keys of Lookup *)

Lemma nodeCount_le_Lookup g :
  (forall e, e ∈ Edges g -> Src e ∈ Lookup g /\ Dst e ∈ Lookup g) ->
  (nodeCount g <= length (Lookup g))%nat.
Proof.
  intros Hclosed. unfold nodeCount.
  replace (length (Lookup g)) with (length (map normalizeNodeName (Lookup g)))
    by apply length_map.
  apply size_le_length. intros n Hn. unfold nodeNames in Hn.
  apply elem_of_list_to_set, list_elem_of_fmap in Hn as (x & -> & Hx).
  apply list_elem_of_fmap. exists x. split; [done|].
  apply elem_of_app in Hx as [Hx|Hx]; [done|].
  apply list_elem_of_In, in_flat_map in Hx as (e & He & Hx).
  apply list_elem_of_In in He. destruct (Hclosed e He) as [Hs Hd].
  destruct Hx as [<-|[<-|[]]]; done.
Qed.

(** X6: in a graph whose edge ends are all keys of Lookup, as gographviz
    builds it, a non-positive bound and a positive bound of at least
    len(Lookup) give the same record sequence. *)
Theorem unbounded_equals_bound_of_Lookup_size (g : Graph) (t : string) (K0 K : Z) :
  (forall e, e ∈ Edges g -> Src e ∈ Lookup g /\ Dst e ∈ Lookup g) ->
  K0 <= 0 -> 0 < K -> Z.of_nat (length (Lookup g)) <= K ->
  findDependentsWithDepth g t K0 = findDependentsWithDepth g t K.
Proof.
  intros Hclosed HK0 HK Hn. apply nodeCount_le_Lookup in Hclosed.
  unfold findDependentsWithDepth.
  rewrite (searchAtDepth_bound_irrelevant _ g t 0 K K0); [done..|].
  pose proof (unvisited_nodeCount g (seedVisited t)). simpl. lia.
Qed.

(** X6 at the graph of the spec's example, with bounds 0 and 5. *)
Lemma unbounded_equals_bound_of_Lookup_size_witness :
  findDependentsWithDepth g_spec "B" 0 = findDependentsWithDepth g_spec "B" 5.
Proof.
  apply unbounded_equals_bound_of_Lookup_size; [|lia|lia|simpl; lia].
  intros e He. unfold g_spec in *. simpl in *.
  repeat (apply elem_of_cons in He as [->|He]; [split; set_solver|]).
  inversion He.
Defined.

(** ** The example scenarios of the spec, run on the code *)

Example spec_scenario_unbounded :
  findDependentsWithDepth g_spec "B" (-1)
    = [mkDep "A" 1; mkDep "C" 1; mkDep "D" 2; mkDep "E" 2]
  /\ Run (inr g_spec) "B" (-1)
      = ([DepthHeader 1 2; DepthMember 1 "A"; DepthMember 2 "C";
          DepthHeader 2 2; DepthMember 1 "D"; DepthMember 2 "E"], None)
  /\ stdout (fst (Run (inr g_spec) "B" (-1)))
      = "depth 1 (num 2):" +:+ newline +:+ tab +:+ "1. A" +:+ newline
          +:+ tab +:+ "2. C" +:+ newline
          +:+ "depth 2 (num 2):" +:+ newline +:+ tab +:+ "1. D" +:+ newline
          +:+ tab +:+ "2. E" +:+ newline.
Proof. by vm_compute. Qed.

Example spec_scenario_bound_1 :
  findDependentsWithDepth g_spec "B" 1 = [mkDep "A" 1; mkDep "C" 1].
Proof. by vm_compute. Qed.

Example spec_scenario_not_found :
  Run (inr g_spec) "Z" (-1) = ([], Some (errorsNew (notFoundText "Z"))).
Proof. by vm_compute. Qed.

Example spec_scenario_diamonds :
  findDependentsWithDepth g_diamond "D" (-1)
    = [mkDep "B" 1; mkDep "C" 1; mkDep "A" 2]
  /\ findDependentsWithDepth g_uneven "D" (-1) = [mkDep "B" 1; mkDep "C" 1].
Proof. by vm_compute. Qed.

(** ** normalizeNodeName strips the surrounding quotes and nothing else *)

Lemma string_app_cons (x : ascii) (a b : string) :
  String x a +:+ b = String x (a +:+ b).
Proof. reflexivity. Qed.

Lemma string_app_nil_l (a : string) : EmptyString +:+ a = a.
Proof. reflexivity. Qed.

Lemma string_app_assoc (a b c : string) : (a +:+ b) +:+ c = a +:+ (b +:+ c).
Proof.
  induction a as [|x a IH]; [done|]. rewrite !string_app_cons. by rewrite IH.
Qed.

Lemma trimLeftByte_split s :
  exists a, s = quotes a +:+ trimLeftByte s quote
            /\ firstByte (trimLeftByte s quote) <> Some quote.
Proof.
  induction s as [|b rest (a & Hs & Hf)]; [by exists 0%nat|]. simpl.
  destruct (Ascii.eqb b quote) eqn:Hb.
  - apply Ascii.eqb_eq in Hb as ->. exists (S a). split; [|done].
    simpl. rewrite string_app_cons. f_equal. exact Hs.
  - apply Ascii.eqb_neq in Hb. exists 0%nat. split; [done|]. simpl. congruence.
Qed.

Lemma trimRightByte_split s :
  exists b, s = trimRightByte s quote +:+ quotes b
            /\ lastByte (trimRightByte s quote) <> Some quote.
Proof.
  induction s as [|x rest (b & Hs & Hl)]; [by exists 0%nat|]. simpl.
  destruct (trimRightByte rest quote) as [|k ks] eqn:Hr.
  - rewrite string_app_nil_l in Hs. destruct (Ascii.eqb x quote) eqn:Hx.
    + apply Ascii.eqb_eq in Hx as ->. exists (S b). split; [|done].
      rewrite string_app_nil_l. simpl. f_equal. exact Hs.
    + apply Ascii.eqb_neq in Hx. exists b.
      split; [rewrite string_app_cons, string_app_nil_l; by f_equal|].
      simpl. congruence.
  - exists b. split; [rewrite string_app_cons; by f_equal|]. exact Hl.
Qed.

Lemma trimLeftByte_fixed s : firstByte s <> Some quote -> trimLeftByte s quote = s.
Proof.
  destruct s as [|b rest]; [done|]. simpl. intros Hb.
  destruct (Ascii.eqb b quote) eqn:Heq; [|done].
  apply Ascii.eqb_eq in Heq. congruence.
Qed.

Lemma trimRightByte_fixed s : lastByte s <> Some quote -> trimRightByte s quote = s.
Proof.
  induction s as [|b rest IH]; [done|]. intros Hl. simpl.
  destruct rest as [|k ks].
  - simpl in *. destruct (Ascii.eqb b quote) eqn:Heq; [|done].
    apply Ascii.eqb_eq in Heq. congruence.
  - rewrite IH by exact Hl. done.
Qed.

Lemma lastByte_trimLeftByte s :
  lastByte s <> Some quote -> lastByte (trimLeftByte s quote) <> Some quote.
Proof.
  induction s as [|b rest IH]; [done|]. intros Hl. simpl.
  destruct (Ascii.eqb b quote) eqn:Heq; [|exact Hl].
  apply Ascii.eqb_eq in Heq as ->. apply IH.
  destruct rest; [|exact Hl]. simpl in Hl. congruence.
Qed.

(** X7: normalizeNodeName takes double quotes off both ends of a name and
    leaves the rest: the name is some quotes, the canonical name, and some
    quotes; the canonical name neither starts nor ends with a quote;
    normalising it again changes nothing; and a name is its own canonical
    name exactly when it neither starts nor ends with a quote. *)
Theorem normalizeNodeName_strips_quotes (name : string) :
  (exists a b, name = quotes a +:+ normalizeNodeName name +:+ quotes b)
  /\ firstByte (normalizeNodeName name) <> Some quote
  /\ lastByte (normalizeNodeName name) <> Some quote
  /\ normalizeNodeName (normalizeNodeName name) = normalizeNodeName name
  /\ (normalizeNodeName name = name <->
        firstByte name <> Some quote /\ lastByte name <> Some quote).
Proof.
  unfold normalizeNodeName.
  destruct (trimRightByte_split name) as (b & Hr & Hlast).
  destruct (trimLeftByte_split (trimRightByte name quote)) as (a & Hl & Hfirst).
  assert (Hlast' : lastByte (trimLeftByte (trimRightByte name quote) quote) <> Some quote)
    by by apply lastByte_trimLeftByte.
  split; [|split; [done|split; [done|split]]].
  - exists a, b. rewrite <- string_app_assoc, <- Hl. exact Hr.
  - apply normalizeNodeName_idemp.
  - split.
    + intros Heq. by rewrite <- Heq.
    + intros [Hf Hla]. by rewrite (trimRightByte_fixed name), (trimLeftByte_fixed name).
Qed.

(** ** findExactPackage does not depend on the order of the map *)

Lemma findExactPackage_range_found keys p :
  (exists n, n ∈ keys /\ normalizeNodeName n = p) ->
  findExactPackage_range keys p = (p, true).
Proof.
  induction keys as [|k keys IH]; intros (n & Hn & Hp); [inversion Hn|]. simpl.
  destruct (decide (normalizeNodeName k = p)) as [->|Hk]; [done|].
  apply IH. exists n. split; [|done]. apply elem_of_cons in Hn as [->|Hn]; done.
Qed.

Lemma findExactPackage_range_missing keys p :
  (forall n, n ∈ keys -> normalizeNodeName n <> p) ->
  findExactPackage_range keys p = (EmptyString, false).
Proof.
  induction keys as [|k keys IH]; intros Hno; [done|]. simpl.
  destruct (decide (normalizeNodeName k = p)) as [Hk|Hk].
  - destruct (Hno k); [left|done].
  - apply IH. intros n Hn. apply Hno. by right.
Qed.

(** X8: findExactPackage returns the package name itself and true when
    some key of Lookup has that canonical name, and the empty string and
    false when none has; so the order in which the map is ranged over does
    not matter, and a name that is found is canonical. *)
Theorem findExactPackage_exact_and_order_free :
  (forall g p, (exists n, n ∈ Lookup g /\ normalizeNodeName n = p) ->
     findExactPackage g p = (p, true) /\ normalizeNodeName p = p)
  /\ (forall g p, (forall n, n ∈ Lookup g -> normalizeNodeName n <> p) ->
        findExactPackage g p = (EmptyString, false))
  /\ (forall keys keys' es es' p, keys ≡ₚ keys' ->
        findExactPackage (mkGraph keys es) p = findExactPackage (mkGraph keys' es') p).
Proof.
  split; [|split].
  - intros g p Hex. split; [by apply findExactPackage_range_found|].
    destruct Hex as (n & _ & <-). apply normalizeNodeName_idemp.
  - intros g p. apply findExactPackage_range_missing.
  - intros keys keys' es es' p Hperm. unfold findExactPackage. simpl.
    destruct (decide (Exists (fun n => normalizeNodeName n = p) keys)) as [Hex|Hno].
    + apply Exists_exists in Hex as (n & Hn & Hp).
      rewrite !findExactPackage_range_found; [done|exists n|exists n]; [|done].
      by rewrite <- Hperm.
    + rewrite Exists_exists in Hno.
      rewrite !findExactPackage_range_missing; [done| |].
      * intros n Hn Hp. apply Hno. exists n. by rewrite Hperm.
      * intros n Hn Hp. apply Hno. eauto.
Qed.

(** ** findDirectDependents lists each direct dependent once *)

Lemma findDirectDependents_range_fresh edges t V :
  NoDup (map normalizeNodeName (findDirectDependents_range edges t V []))
  /\ (forall x, x ∈ findDirectDependents_range edges t V [] ->
        is_visited V (normalizeNodeName x) = false).
Proof.
  revert V. induction edges as [|e edges IH]; intros V; simpl.
  - split; [constructor|]. intros x Hx. inversion Hx.
  - destruct (decide _) as [_|_]; [|apply IH].
    destruct (is_visited V (normalizeNodeName (Src e))) eqn:Hv; simpl; [apply IH|].
    rewrite findDirectDependents_range_acc.
    destruct (IH (mark V (normalizeNodeName (Src e)))) as [Hnd Hfresh].
    split.
    + simpl. constructor; [|done]. intros Hin.
      apply list_elem_of_fmap in Hin as (x & Hx & Hin). apply Hfresh in Hin.
      rewrite <- Hx, is_visited_mark in Hin. by case_decide.
    + intros x Hx. apply elem_of_app in Hx as [Hx|Hx].
      * apply list_elem_of_singleton in Hx as ->. done.
      * apply Hfresh in Hx. rewrite is_visited_mark in Hx. by case_decide.
Qed.

Lemma findDirectDependents_range_sublist edges t V :
  findDirectDependents_range edges t V [] `sublist_of` map Src edges.
Proof.
  revert V. induction edges as [|e edges IH]; intros V; simpl; [constructor|].
  destruct (decide _) as [_|_]; [|by apply sublist_cons].
  destruct (negb _); [|by apply sublist_cons].
  rewrite findDirectDependents_range_acc. simpl. by apply sublist_skip.
Qed.

(** X9: findDirectDependents returns each direct dependent once, in
    declaration order: the names it returns are sources of edges into the
    node, taken in the order of the edge list; no two of them have the same
    canonical name; and every edge into the node has its canonical source
    among them. *)
Theorem findDirectDependents_each_dependent_once (g : Graph) (t : string) :
  findDirectDependents g t `sublist_of` map Src (Edges g)
  /\ (forall x, x ∈ findDirectDependents g t ->
        exists e, e ∈ Edges g /\ Src e = x /\ normalizeNodeName (Dst e) = t)
  /\ NoDup (map normalizeNodeName (findDirectDependents g t))
  /\ (forall e, e ∈ Edges g -> normalizeNodeName (Dst e) = t ->
        normalizeNodeName (Src e) ∈ map normalizeNodeName (findDirectDependents g t)).
Proof.
  split; [apply findDirectDependents_range_sublist|].
  split; [apply findDirectDependents_edge|].
  split; [apply findDirectDependents_range_fresh|].
  intros e He Hd.
  destruct (findDirectDependents_range_covers (Edges g) t ∅ e He Hd) as [Hv|Hin]; [|done].
  by rewrite is_visited_empty in Hv.
Qed.

(** ** The first layer *)

Lemma seedVisited_false t n :
  is_visited (seedVisited t) n = false <-> n <> normalizeNodeName t /\ n <> rootSentinel.
Proof.
  unfold seedVisited. rewrite !is_visited_mark, is_visited_empty.
  repeat case_decide; naive_solver.
Qed.

Lemma filter_ext_elem {A} (P Q : A -> Prop) `{!forall x, Decision (P x)}
    `{!forall x, Decision (Q x)} (l : list A) :
  (forall x, x ∈ l -> P x <-> Q x) -> filter P l = filter Q l.
Proof.
  induction l as [|x l IH]; intros Hext; [done|].
  rewrite !filter_cons. rewrite IH by (intros y Hy; apply Hext; by right).
  destruct (decide (P x)) as [HP|HP], (decide (Q x)) as [HQ|HQ]; try done.
  - destruct HQ. apply Hext; [left|done].
  - destruct HP. apply Hext; [left|done].
Qed.

Lemma freshNames_filter l V :
  NoDup (map normalizeNodeName l) ->
  freshNames l V = filter (fun n => is_visited V n = false) (map normalizeNodeName l).
Proof.
  revert V. induction l as [|x l IH]; intros V Hnd; [done|]. simpl in *.
  apply NoDup_cons in Hnd as [Hx Hnd].
  destruct (is_visited V (normalizeNodeName x)) eqn:Hv.
  - rewrite filter_cons_False by congruence. by apply IH.
  - rewrite filter_cons_True by done. f_equal. rewrite IH by done.
    apply filter_ext_elem. intros n Hn. rewrite is_visited_mark.
    case_decide; [by subst|done].
Qed.

Lemma freshNames_firstLayer g t :
  freshNames (findDirectDependents g t) (seedVisited t) = firstLayer g t.
Proof.
  rewrite freshNames_filter by apply findDirectDependents_range_fresh.
  unfold firstLayer. apply filter_ext_elem. intros n _. apply seedVisited_false.
Qed.

Lemma searchAtDepth_at_bound fuel g n d K s s' :
  0 < K -> K <= d -> searchAtDepth fuel g n d K s = Some s' -> s' = s.
Proof.
  intros HK Hd. destruct fuel as [|fuel]; [done|]. simpl.
  replace (0 <? K) with true by (symmetry; apply Z.ltb_lt; lia).
  replace (K <=? d) with true by (symmetry; apply Z.leb_le; lia).
  by intros [= <-].
Qed.

Lemma revPath_one g t n :
  revPath g t n 1 ->
  exists e, e ∈ Edges g /\ normalizeNodeName (Dst e) = t /\ normalizeNodeName (Src e) = n.
Proof.
  intros Hp. inversion Hp as [|m n' k e Hp0 He Hd Hs]. subst.
  inversion Hp0. subst. eauto.
Qed.

Lemma findDependentsWithDepth_layers g t K :
  exists deeper,
    findDependentsWithDepth g t K = recordsAt 1 (firstLayer g t) ++ deeper
    /\ Forall (fun r => 2 <= Depth r) deeper
    /\ (K = 1 -> deeper = []).
Proof.
  destruct (findDependentsWithDepth_run g t K) as (st & Hrun & ->).
  unfold searchFuel in Hrun. simpl in Hrun.
  destruct ((0 <? K) && (K <=? 0)) eqn:Hcut.
  { apply andb_true_iff in Hcut as [H1 H2].
    apply Z.ltb_lt in H1. apply Z.leb_le in H2. lia. }
  rewrite markDependents_eq, freshNames_firstLayer in Hrun. simpl in Hrun.
  pose proof Hrun as Hq.
  apply (forQueue_extends g 1 K) in Hq as (new & Hres & _ & _ & Hnew);
    [|intros ? ? ? Hc; by apply searchAtDepth_extends in Hc].
  simpl in Hres. exists new. split; [done|]. split.
  - apply Forall_forall. intros r Hr. destruct (Hnew r Hr) as (_ & ? & _). lia.
  - intros ->.
    apply (forQueue_inv
             (fun s => s = mkState (foldl mark (seedVisited t) (firstLayer g t))
                                   (recordsAt 1 (firstLayer g t)))
             (fun _ => True)) in Hrun; [| |by apply Forall_forall|done].
    + rewrite Hrun in Hres. simpl in Hres.
      rewrite <- (app_nil_r (recordsAt 1 (firstLayer g t))) in Hres at 1.
      by apply app_inv_head in Hres.
    + intros x s s' _ -> Hc. by apply searchAtDepth_at_bound in Hc.
Qed.

(** X10: whatever the bound, the records of depth 1 come first and are the
    direct dependents of the target, by canonical name and in declaration
    order, except the names of the target and of the sentinel; every later
    record has depth 2 or more; with bound 1 there is no later record. *)
Theorem first_layer_is_the_direct_dependents (g : Graph) (t : string) (K : Z) :
  exists deeper,
    findDependentsWithDepth g t K = recordsAt 1 (firstLayer g t) ++ deeper
    /\ Forall (fun r => 2 <= Depth r) deeper
    /\ (K = 1 -> deeper = []).
Proof. apply findDependentsWithDepth_layers. Qed.

(** X11: a record of depth 1 or 2 has the shortest depth: no reverse path
    from the target to its node has fewer edges. *)
Theorem shallow_depths_are_shortest (g : Graph) (t : string) (K : Z) :
  Forall (fun r => Depth r <= 2 ->
                   forall k, revPath g t (NodeName r) k -> Depth r <= Z.of_nat k)
         (findDependentsWithDepth g t K).
Proof.
  destruct (findDependentsWithDepth_layers g t K) as (deeper & Hres & Hdeep & _).
  pose proof (findDependentsWithDepth_records g t K) as Hrec.
  pose proof (findDependentsWithDepth_extends g t K) as (st & Hst & new & Hnew & Hnd & _).
  simpl in Hnew. rewrite Hst, Hnew in *. clear st Hst Hnew.
  apply Forall_forall. intros r Hr Hle k Hpath.
  eapply Forall_forall in Hrec as (Hnv & H1 & _ & Hsrc); [|exact Hr].
  destruct k as [|[|k]]; [| |lia].
  - exfalso. assert (Ht : NodeName r = t) by (by inversion Hpath).
    apply list_elem_of_fmap in Hsrc as (e & Hn & _).
    assert (Hcan : normalizeNodeName (NodeName r) = NodeName r)
      by (rewrite Hn; apply normalizeNodeName_idemp).
    rewrite Ht in Hcan, Hnv. pose proof (seedVisited_target t) as Hseed.
    rewrite Hcan in Hseed. congruence.
  - destruct (decide (Depth r = 1)) as [->|Hne]; [done|]. exfalso.
    apply revPath_one in Hpath as (e & He & Hd & Hs).
    assert (Hin1 : NodeName r ∈ firstLayer g t).
    { unfold firstLayer. apply list_elem_of_filter. split; [by apply seedVisited_false|].
      rewrite <- Hs.
      destruct (findDirectDependents_range_covers (Edges g) t ∅ e He Hd)
        as [Hv|Hin]; [by rewrite is_visited_empty in Hv|done]. }
    rewrite Hres in Hr, Hnd. rewrite map_app in Hnd.
    apply NoDup_app in Hnd as (_ & Hdisj & _).
    apply elem_of_app in Hr as [Hr|Hr].
    + apply list_elem_of_fmap in Hr as (n & -> & _). simpl in Hne. done.
    + apply (Hdisj (NodeName r)); [|by apply list_elem_of_fmap_2].
      unfold recordsAt. rewrite map_map. simpl. by rewrite map_id.
Qed.

(** X12: every recorded name is canonical: normalizeNodeName leaves it as
    it is, so it neither starts nor ends with a double quote. *)
Theorem record_names_are_canonical (g : Graph) (t : string) (K : Z) :
  Forall (fun r => normalizeNodeName (NodeName r) = NodeName r
                   /\ firstByte (NodeName r) <> Some quote
                   /\ lastByte (NodeName r) <> Some quote)
         (findDependentsWithDepth g t K).
Proof.
  eapply Forall_impl; [apply findDependentsWithDepth_records|].
  intros r (_ & _ & _ & Hsrc). apply list_elem_of_fmap in Hsrc as (e & -> & _).
  split; [apply normalizeNodeName_idemp|].
  unfold normalizeNodeName.
  destruct (trimRightByte_split (Src e)) as (b & _ & Hlast).
  destruct (trimLeftByte_split (trimRightByte (Src e) quote)) as (a & _ & Hfirst).
  split; [done|]. by apply lastByte_trimLeftByte.
Qed.

(** ** The unbounded search finds exactly the nodes on live paths *)

Lemma searchAtDepth_live fuel g t0 m d K st st' :
  0 <= d -> livePath g t0 m (Z.to_nat d) ->
  (forall n, is_visited (seedVisited t0) n = true -> is_visited (visited st) n = true) ->
  Forall (fun r => livePath g t0 (NodeName r) (Z.to_nat (Depth r))) (result st) ->
  searchAtDepth fuel g m d K st = Some st' ->
  Forall (fun r => livePath g t0 (NodeName r) (Z.to_nat (Depth r))) (result st').
Proof.
  revert m d st st'. induction fuel as [|fuel IH]; intros m d st st' Hd Hm Hseed Hst; [done|].
  simpl. destruct (_ && _); [by intros [= <-]|].
  rewrite markDependents_eq.
  destruct (freshNames_spec (findDirectDependents g m) (visited st)) as (_ & Hin & _).
  assert (Hfresh : Forall (fun n => livePath g t0 n (Z.to_nat (d + 1)))
                          (freshNames (findDirectDependents g m) (visited st))).
  { apply Forall_forall. intros n Hn. destruct (Hin n Hn) as [Hnv Hsrc].
    apply list_elem_of_fmap in Hsrc as (x & -> & Hx).
    apply findDirectDependents_edge in Hx as (e & He & <- & Hdst).
    replace (Z.to_nat (d + 1)) with (S (Z.to_nat d)) by lia.
    eapply livePath_step; [exact Hm|exact He|exact Hdst|done|].
    destruct (is_visited (seedVisited t0) _) eqn:Hs; [|done].
    apply Hseed in Hs. congruence. }
  intros Hq.
  eapply (forQueue_inv
            (fun s => (forall n, is_visited (seedVisited t0) n = true ->
                                 is_visited (visited s) n = true)
                      /\ Forall (fun r => livePath g t0 (NodeName r) (Z.to_nat (Depth r)))
                                (result s))
            (fun n => livePath g t0 n (Z.to_nat (d + 1)))) in Hq; [tauto| | |].
  - intros x s s' Hx [Hs1 Hs2] Hc. split.
    + intros n Hn. eapply extends_visited_mono; [|by apply Hs1].
      eapply searchAtDepth_extends, Hc.
    + eapply (IH _ (d + 1) s s'); [lia| |done|done|exact Hc].
      replace (Z.to_nat (d + 1)) with (S (Z.to_nat d)) in * by lia.
      inversion Hx as [|m' n k e Hp He Hdst Hsrc Hlive]; subst.
      rewrite !normalizeNodeName_idemp. by eapply livePath_step.
  - rewrite app_nil_l. exact Hfresh.
  - simpl. split.
    + intros n Hn. apply is_visited_foldl_mark. left. by apply Hseed.
    + apply Forall_app. split; [done|]. unfold recordsAt. apply Forall_fmap. exact Hfresh.
Qed.

Lemma findDependentsWithDepth_live g t K :
  Forall (fun r => livePath g t (NodeName r) (Z.to_nat (Depth r)))
         (findDependentsWithDepth g t K).
Proof.
  destruct (findDependentsWithDepth_run g t K) as (st & Hrun & ->).
  eapply searchAtDepth_live; [| | | |exact Hrun]; [lia|constructor|done|constructor].
Qed.

Lemma livePath_recorded g t n k K :
  K <= 0 -> livePath g t n (S k) -> n ∈ map NodeName (findDependentsWithDepth g t K).
Proof.
  intros HK Hpath.
  destruct (findDependentsWithDepth_run g t K) as (st & Hrun & ->).
  pose proof (searchAtDepth_extends _ _ _ _ _ _ _ Hrun) as (new & Hres & _ & Hv & _).
  apply searchAtDepth_expanded in Hrun as (new' & Hres' & Ht & Hnew); [|done].
  simpl in *. subst new'. rewrite Hres in *.
  assert (Hall : forall m j, livePath g t m j ->
                   (m = t /\ j = 0%nat) \/ m ∈ map NodeName new).
  { intros m j Hp. induction Hp as [|m' n' j e Hp IHp He Hd Hs Hlive]; [by left|].
    right. assert (Hvis : is_visited (visited st) n' = true).
    { destruct IHp as [[-> _]|Hm'].
      - rewrite <- Hs. by apply Ht.
      - apply list_elem_of_fmap in Hm' as (r & -> & Hr).
        eapply Forall_forall in Hnew; [|exact Hr]. rewrite <- Hs. by apply Hnew. }
    apply Hv in Hvis as [Hseed|Hin]; [congruence|done]. }
  destruct (Hall _ _ Hpath) as [[_ ?]|Hin]; [lia|done].
Qed.

(** X13: with a non-positive bound the recorded nodes are exactly the nodes
    that a reverse path of one edge or more reaches from the target through
    nodes named neither like the target nor like the sentinel; and a search
    with any other bound records only nodes that the unbounded search
    records too. *)
Theorem unbounded_search_is_exact (g : Graph) (t : string) (K0 : Z) :
  K0 <= 0 ->
  (forall n, n ∈ map NodeName (findDependentsWithDepth g t K0) <->
             exists k, livePath g t n (S k))
  /\ (forall K, Forall (fun r => NodeName r ∈ map NodeName (findDependentsWithDepth g t K0))
                       (findDependentsWithDepth g t K)).
Proof.
  intros HK0.
  assert (Hlive : forall K r, r ∈ findDependentsWithDepth g t K ->
                              exists k, livePath g t (NodeName r) (S k)).
  { intros K r Hr.
    pose proof (findDependentsWithDepth_live g t K) as Hl.
    pose proof (findDependentsWithDepth_records g t K) as Hrec.
    eapply Forall_forall in Hl; [|exact Hr].
    eapply Forall_forall in Hrec as (_ & H1 & _); [|exact Hr].
    exists (Nat.pred (Z.to_nat (Depth r))).
    replace (S (Nat.pred (Z.to_nat (Depth r)))) with (Z.to_nat (Depth r)) by lia. done. }
  split.
  - intros n. split.
    + intros Hn. apply list_elem_of_fmap in Hn as (r & -> & Hr). by eapply Hlive.
    + intros (k & Hp). by eapply livePath_recorded.
  - intros K. apply Forall_forall. intros r Hr.
    destruct (Hlive K r Hr) as (k & Hp). by eapply livePath_recorded.
Qed.

(** X13 at the graph of the spec's example, with bound -1. *)
Lemma unbounded_search_is_exact_witness :
  (forall n, n ∈ map NodeName (findDependentsWithDepth g_spec "B" (-1)) <->
             exists k, livePath g_spec "B" n (S k))
  /\ (forall K, Forall (fun r => NodeName r
                                   ∈ map NodeName (findDependentsWithDepth g_spec "B" (-1)))
                       (findDependentsWithDepth g_spec "B" K)).
Proof. apply unbounded_search_is_exact. lia. Defined.

(** ** The report prints every record once *)

Lemma memberNames_app out1 out2 :
  memberNames (out1 ++ out2) = memberNames out1 ++ memberNames out2.
Proof. apply omap_app. Qed.

Lemma memberNames_imap (idx : nat -> Z) (members : list DependentWithDepth) :
  memberNames (imap (fun i r => DepthMember (idx i) (NodeName r)) members)
    = map NodeName members.
Proof.
  revert idx. induction members as [|r rs IH]; intros idx; [done|].
  rewrite imap_cons. simpl. f_equal. apply (IH (idx ∘ S)).
Qed.

Lemma memberNames_groupLines d members :
  memberNames (groupLines d members) = map NodeName members.
Proof. unfold groupLines. simpl. apply (memberNames_imap (fun i => Z.of_nat i + 1)). Qed.

Lemma flat_map_cons {A B} (f : A -> list B) (x : A) (l : list A) :
  flat_map f (x :: l) = f x ++ flat_map f l.
Proof. reflexivity. Qed.

Lemma memberNames_groups records ds :
  memberNames (flat_map (fun d => groupLines d (membersAt d records))
                        (filter (fun d => membersAt d records <> []) ds))
    = map NodeName (flat_map (fun d => membersAt d records) ds).
Proof.
  induction ds as [|d ds IH]; [done|].
  rewrite (flat_map_cons (fun d => membersAt d records)), map_app, <- IH.
  destruct (decide (membersAt d records <> [])) as [Hne|Hnil].
  - rewrite filter_cons_True by done.
    by rewrite flat_map_cons, memberNames_app, memberNames_groupLines.
  - rewrite filter_cons_False by done.
    destruct (membersAt d records); [done|]. by destruct Hnil.
Qed.

Lemma membersAt_cons d r rs :
  membersAt d (r :: rs) = if decide (Depth r = d) then r :: membersAt d rs else membersAt d rs.
Proof. unfold membersAt. by rewrite filter_cons. Qed.

Lemma flat_map_membersAt_absent r rs ds :
  Depth r ∉ ds ->
  flat_map (fun d => membersAt d (r :: rs)) ds = flat_map (fun d => membersAt d rs) ds.
Proof.
  induction ds as [|d ds IH]; intros Hd; [done|]. simpl.
  rewrite membersAt_cons, IH by set_solver.
  destruct (decide (Depth r = d)) as [<-|]; [|done]. set_solver.
Qed.

Lemma flat_map_membersAt_present r rs ds :
  NoDup ds -> Depth r ∈ ds ->
  flat_map (fun d => membersAt d (r :: rs)) ds ≡ₚ r :: flat_map (fun d => membersAt d rs) ds.
Proof.
  induction ds as [|d ds IH]; intros Hnd Hd; [inversion Hd|].
  apply NoDup_cons in Hnd as [Hnotin Hnd]. simpl. rewrite membersAt_cons.
  destruct (decide (Depth r = d)) as [Heq|Hne].
  - rewrite flat_map_membersAt_absent by (by rewrite Heq). done.
  - apply elem_of_cons in Hd as [Hd|Hd]; [done|].
    rewrite IH by done. symmetry. apply Permutation_middle.
Qed.

Lemma flat_map_membersAt_seqZ records a :
  Forall (fun r => Depth r <= a) records ->
  flat_map (fun d => membersAt d records) (seqZ 1 a)
    ≡ₚ filter (fun r => 1 <= Depth r) records.
Proof.
  induction 1 as [|r rs Hr Hrs IH].
  - induction (seqZ 1 a) as [|d ds IHd]; [done|]. simpl. exact IHd.
  - destruct (decide (1 <= Depth r)) as [H1|H1].
    + rewrite filter_cons_True by done.
      rewrite flat_map_membersAt_present; [by rewrite IH|apply NoDup_seqZ|].
      apply elem_of_seqZ. lia.
    + rewrite filter_cons_False by done.
      rewrite flat_map_membersAt_absent; [done|]. rewrite elem_of_seqZ. lia.
Qed.

Lemma report_memberNames records :
  memberNames (report records) ≡ₚ map NodeName (filter (fun r => 1 <= Depth r) records).
Proof.
  destruct (report_groups records) as (a & -> & Hall).
  rewrite memberNames_groups. by rewrite flat_map_membersAt_seqZ.
Qed.

(** X14: the report prints one member line for every record of depth 1 or
    more and none for any other record; for the records of a search that is
    one line for every record, no name twice. *)
Theorem report_prints_every_record_once :
  (forall records,
      memberNames (report records)
        ≡ₚ map NodeName (filter (fun r => 1 <= Depth r) records))
  /\ (forall g t K,
        memberNames (report (findDependentsWithDepth g t K))
          ≡ₚ map NodeName (findDependentsWithDepth g t K)
        /\ NoDup (memberNames (report (findDependentsWithDepth g t K)))).
Proof.
  split; [exact report_memberNames|]. intros g t K.
  assert (Hperm : memberNames (report (findDependentsWithDepth g t K))
                    ≡ₚ map NodeName (findDependentsWithDepth g t K)).
  { rewrite report_memberNames. f_equiv.
    pose proof (findDependentsWithDepth_records g t K) as Hrec.
    induction Hrec as [|r rs (_ & H1 & _) _ IH]; [done|].
    rewrite filter_cons_True by done. by rewrite IH. }
  split; [done|]. rewrite Hperm.
  destruct (findDependentsWithDepth_extends g t K) as (st & -> & new & Hres & Hnd & _).
  simpl in Hres. by rewrite Hres.
Qed.


(** ** A target that is not canonical matches nothing *)

Lemma noncanonical_no_match t x :
  normalizeNodeName t <> t -> normalizeNodeName x <> t.
Proof. intros Ht Hx. apply Ht. rewrite <- Hx. apply normalizeNodeName_idemp. Qed.

(** X16: a target name that starts or ends with a double quote (one that
    normalizeNodeName would change) matches no node and no edge: the lookup
    fails, the node has no direct dependents, the search is empty, and Run
    returns the not-found error and prints nothing. *)
Theorem noncanonical_target_matches_nothing (g : Graph) (t : string) (K : Z) :
  normalizeNodeName t <> t ->
  findExactPackage g t = (EmptyString, false)
  /\ findDirectDependents g t = []
  /\ findDependentsWithDepth g t K = []
  /\ Run (inr g) t K = ([], Some (errorsNew (notFoundText t))).
Proof.
  intros Ht.
  assert (Hfind : findExactPackage g t = (EmptyString, false)).
  { apply findExactPackage_range_missing. intros n _. by apply noncanonical_no_match. }
  split; [done|]. split; [|split].
  - apply findDirectDependents_no_edge. intros e _. by apply noncanonical_no_match.
  - apply findDependentsWithDepth_no_edge. intros e _. by apply noncanonical_no_match.
  - unfold Run. by rewrite Hfind.
Qed.

(** X16 at the graph whose node is written with quotes, for the target
    written with quotes. *)
Lemma noncanonical_target_matches_nothing_witness :
  normalizeNodeName (quoted "libfoo") <> quoted "libfoo"
  /\ findExactPackage g_quoted (quoted "libfoo") = (EmptyString, false)
  /\ findDirectDependents g_quoted (quoted "libfoo") = []
  /\ findDependentsWithDepth g_quoted (quoted "libfoo") (-1) = []
  /\ Run (inr g_quoted) (quoted "libfoo") (-1)
      = ([], Some (errorsNew (notFoundText (quoted "libfoo")))).
Proof.
  assert (H : normalizeNodeName (quoted "libfoo") <> quoted "libfoo") by (by vm_compute).
  exact (conj H (noncanonical_target_matches_nothing g_quoted (quoted "libfoo") (-1) H)).
Defined.

(** ** The quoting of names in the graph does not matter *)

Lemma findDirectDependents_range_canon es t V acc :
  findDirectDependents_range (map canonEdge es) t V (map normalizeNodeName acc)
    = map normalizeNodeName (findDirectDependents_range es t V acc).
Proof.
  revert V acc. induction es as [|e es IH]; intros V acc; [done|]. simpl.
  rewrite !normalizeNodeName_idemp.
  destruct (decide _) as [_|_]; [|apply IH].
  destruct (negb _); [|apply IH].
  rewrite <- IH. by rewrite map_app.
Qed.

Lemma findDirectDependents_canon g t :
  findDirectDependents (canonGraph g) t = map normalizeNodeName (findDirectDependents g t).
Proof. apply (findDirectDependents_range_canon (Edges g) t ∅ []). Qed.

Lemma markDependents_normalized l d st q :
  markDependents (map normalizeNodeName l) d st q = markDependents l d st q.
Proof.
  revert st q. induction l as [|x l IH]; intros st q; [done|]. simpl.
  rewrite !normalizeNodeName_idemp. destruct (is_visited _ _); apply IH.
Qed.

Lemma searchAtDepth_canon fuel g t d K st :
  searchAtDepth fuel (canonGraph g) t d K st = searchAtDepth fuel g t d K st.
Proof.
  revert t d st. induction fuel as [|fuel IH]; intros t d st; [done|]. simpl.
  destruct (_ && _); [done|].
  rewrite findDirectDependents_canon, markDependents_normalized.
  destruct (markDependents _ d st []) as [st1 q].
  apply (forQueue_eq_inv (fun _ => True)); auto.
Qed.

Lemma findExactPackage_canon g p :
  findExactPackage (canonGraph g) p = findExactPackage g p.
Proof.
  unfold findExactPackage. simpl. induction (Lookup g) as [|k keys IH]; [done|].
  simpl. rewrite !normalizeNodeName_idemp. by rewrite IH.
Qed.

(** X17: writing every node and edge name of the graph in its canonical
    form (without the surrounding quotes) changes neither the lookup, nor
    the records of the search, nor what Run prints and returns. *)
Theorem quoting_of_graph_names_is_irrelevant (g : Graph) (t : string) (K : Z) :
  findExactPackage (canonGraph g) t = findExactPackage g t
  /\ findDependentsWithDepth (canonGraph g) t K = findDependentsWithDepth g t K
  /\ Run (inr (canonGraph g)) t K = Run (inr g) t K.
Proof.
  assert (Hs : findDependentsWithDepth (canonGraph g) t K = findDependentsWithDepth g t K).
  { unfold findDependentsWithDepth. rewrite searchAtDepth_canon.
    replace (searchFuel (canonGraph g)) with (searchFuel g); [done|].
    unfold searchFuel. simpl. by rewrite length_map. }
  split; [apply findExactPackage_canon|]. split; [done|].
  unfold Run. by rewrite findExactPackage_canon, Hs.
Qed.
